(** * smart-text-editor: the trie, the pattern search and the editing session

    A shallow embedding of [src/components/Trie.js] and of the state handling
    of [src/components/TextEditor.jsx], with the properties the specification
    states about them.  [KMP.js] and [SpellChecker.js], which the editor
    imports, are not among the sources: the editor's handlers take them as
    parameters, and the modules [KMP] and [SpellChecker] below follow
    sections 4.2 and 4.3 of the specification.

    Strings.  A JavaScript string is a sequence of UTF-16 code units.  The
    model takes the code units below 256 (Latin-1), one [ascii] each; on these
    strings [for (const ch of s)] visits one code unit at a time and
    [toLowerCase] maps the string unit by unit. *)

From Stdlib Require Import Ascii String.
From Stdlib Require Import List ZArith Lia Bool Arith PeanoNat Sorted.
Import ListNotations.

Local Open Scope list_scope.

(* ------------------------------------------------------------------ *)
(** ** Strings *)

Definition char := ascii.
Definition str := list char.

(** String literals of the development. *)
Definition js (s : string) : str := list_ascii_of_string s.

Definition char_eqb (a b : char) : bool := Ascii.eqb a b.

Fixpoint str_eqb (a b : str) : bool :=
  match a, b with
  | [], [] => true
  | x :: a', y :: b' => char_eqb x y && str_eqb a' b'
  | _, _ => false
  end.

(** [String.prototype.toLowerCase] on one Latin-1 code unit: [A]-[Z] and the
    accented capitals U+00C0..U+00DE (the multiplication sign U+00D7 apart)
    move up by 32, every other unit stays. *)
Definition lowerChar (c : char) : char :=
  let n := nat_of_ascii c in
  if ((65 <=? n) && (n <=? 90))
     || ((192 <=? n) && (n <=? 222) && negb (n =? 215))
  then ascii_of_nat (n + 32)
  else c.

Definition toLowerCase (s : str) : str := map lowerChar s.

(** [String.prototype.substring(start, end)] for non-negative integer
    arguments: both are clamped to the length and swapped when out of
    order. *)
Definition substring (s : str) (a b : nat) : str :=
  let a' := Nat.min a (length s) in
  let b' := Nat.min b (length s) in
  let from := Nat.min a' b' in
  let to := Nat.max a' b' in
  firstn (to - from) (skipn from s).

(** White space of ECMAScript ([\s], and what [trim] strips) among the
    Latin-1 units: TAB, LF, VT, FF, CR, SPACE and NBSP. *)
Definition isWhiteSpace (c : char) : bool :=
  let n := nat_of_ascii c in
  ((9 <=? n) && (n <=? 13)) || (n =? 32) || (n =? 160).

(* ------------------------------------------------------------------ *)
(** ** JavaScript objects used as maps

    [TrieNode.children] is a plain object keyed by one-character strings.
    The model keeps its own properties in the order [Object.entries] lists
    them: the integer-like keys (here the digits ["0"].. ["9"]) first, in
    ascending order, then every other key in order of creation. *)

Module Obj.
Section Obj.
Context {V : Type}.

Definition t := list (char * V).

Definition isIndexKey (k : char) : bool :=
    let n := nat_of_ascii k in (48 <=? n) && (n <=? 57).

  (** [o[k]] *)
Fixpoint get (o : t) (k : char) : option V :=
    match o with
    | [] => None
    | (k', v) :: rest => if char_eqb k' k then Some v else get rest k
    end.

Definition has (o : t) (k : char) : bool :=
    match get o k with Some _ => true | None => false end.

  (** [o[k] = v] when [k] is already a property: its place is kept. *)
Fixpoint replace (o : t) (k : char) (v : V) : t :=
    match o with
    | [] => []
    | (k', v') :: rest =>
        if char_eqb k' k then (k, v) :: rest else (k', v') :: replace rest k v
    end.

  (** Does the new key [k] come before the existing key [k'] ? *)
Definition before (k k' : char) : bool :=
    isIndexKey k
    && (negb (isIndexKey k') || (nat_of_ascii k <? nat_of_ascii k')).

  (** [o[k] = v] when [k] is a new property. *)
Fixpoint create (o : t) (k : char) (v : V) : t :=
    match o with
    | [] => [(k, v)]
    | (k', v') :: rest =>
        if before k k' then (k, v) :: (k', v') :: rest
        else (k', v') :: create rest k v
    end.

  (** [o[k] = v] *)
Definition set (o : t) (k : char) (v : V) : t :=
    if has o k then replace o k v else create o k v.

  (** [Object.entries(o)] *)
Definition entries (o : t) : list (char * V) := o.
End Obj.
Arguments t : clear implicits.
End Obj.

(* ------------------------------------------------------------------ *)
(** ** Trie.js *)

Unset Elimination Schemes.
Inductive TrieNode : Type :=
  mkTrieNode { children : Obj.t TrieNode; isEnd : bool }.
Set Elimination Schemes.

(** Induction over a trie node, with the property known of every child. *)
Section TrieNode_ind.
Variable P : TrieNode -> Prop.
Hypothesis step :
  forall kids fin,
    Forall (fun e => P (snd e)) kids -> P (mkTrieNode kids fin).

Fixpoint TrieNode_ind (n : TrieNode) : P n :=
  match n with
  | mkTrieNode kids fin =>
      step kids fin
           ((fix all (l : list (char * TrieNode))
               : Forall (fun e => P (snd e)) l :=
               match l with
               | [] => Forall_nil _
               | e :: r => Forall_cons e (TrieNode_ind (snd e)) (all r)
               end) kids)
  end.
End TrieNode_ind.

(** [new TrieNode()] *)
Definition newTrieNode : TrieNode := mkTrieNode [] false.

Record Trie : Type := mkTrie { root : TrieNode }.

(** [new Trie()] *)
Definition newTrie : Trie := mkTrie newTrieNode.

(** The loop of [insert] from the node it has reached, over the characters
    still to come; the node it ends on gets [isEnd = true].  The loop
    mutates the nodes in place; the model rebuilds the path it walks. *)
Fixpoint insertFrom (node : TrieNode) (w : str) : TrieNode :=
  match w with
  | [] => mkTrieNode (children node) true
  | ch :: rest =>
      let child :=
        match Obj.get (children node) ch with
        | Some c => c
        | None => newTrieNode
        end in
      mkTrieNode (Obj.set (children node) ch (insertFrom child rest))
                 (isEnd node)
  end.

Definition insert (t : Trie) (word : str) : Trie :=
  mkTrie (insertFrom (root t) (toLowerCase word)).

(** The first loop of [getSuggestions]: follow the characters from [node];
    [None] is the early [return []]. *)
Fixpoint walk (node : TrieNode) (s : str) : option TrieNode :=
  match s with
  | [] => Some node
  | ch :: rest =>
      match Obj.get (children node) ch with
      | None => None
      | Some next => walk next rest
      end
  end.

(** The closure [dfs]; [results] is the array it pushes to, threaded
    through the calls.  The limit is tested on entry only: the loop over
    the entries goes on when the array is full, and each call returns at
    once. *)
Fixpoint dfs (limit : Z) (prefix : str) (curr : TrieNode) (path : str)
         (results : list str) {struct curr} : list str :=
  if (Z.of_nat (length results) >=? limit)%Z then results
  else
    match curr with
    | mkTrieNode kids fin =>
        let results1 := if fin then results ++ [prefix ++ path] else results in
        (fix each (es : list (char * TrieNode)) (acc : list str) : list str :=
           match es with
           | [] => acc
           | (ch, next) :: rest =>
               each rest (dfs limit prefix next (path ++ [ch]) acc)
           end) (Obj.entries kids) results1
    end.

Definition getSuggestions (t : Trie) (prefix : str) (limit : Z) : list str :=
  match walk (root t) (toLowerCase prefix) with
  | None => []
  | Some node => dfs limit prefix node [] []
  end.

(** The vocabulary [TextEditor] loads on mount. *)
Definition seedWords : list str :=
  map js ["apple"; "application"; "appetite"; "banana"; "band"; "banner";
          "cat"; "cater"; "catalog"]%string.

Definition insertAll (t : Trie) (ws : list str) : Trie :=
  fold_left insert ws t.

Definition seedTrie : Trie := insertAll newTrie seedWords.

(** The word [w] is in the trie below [n]. *)
Definition contains (n : TrieNode) (w : str) : bool :=
  match walk n w with
  | Some n' => isEnd n'
  | None => false
  end.

(** [path n s n']: following the characters of [s] from [n], one
    [children[ch]] at a time, leads to [n']. *)
Inductive path : TrieNode -> str -> TrieNode -> Prop :=
| path_nil n : path n [] n
| path_cons n ch next rest n' :
    Obj.get (children n) ch = Some next ->
    path next rest n' ->
    path n (ch :: rest) n'.

(** [spells n q]: the entries below [n] spell [q] down to a node that ends
    a word; this is what the traversal of [dfs] meets. *)
Inductive spells : TrieNode -> str -> Prop :=
| spells_end kids : spells (mkTrieNode kids true) []
| spells_step kids fin k c q :
    In (k, c) kids -> spells c q -> spells (mkTrieNode kids fin) (k :: q).

(** Every key of the trie is a lower-case character. *)
#[warnings="-register-all"]
Inductive LowerKeys : TrieNode -> Prop :=
| LowerKeys_node kids fin :
    Forall (fun e => lowerChar (fst e) = fst e) kids ->
    Forall (fun e => LowerKeys (snd e)) kids ->
    LowerKeys (mkTrieNode kids fin).

(** Completions of a call: a normal return, or a thrown exception. *)
Inductive JsError : Type := SyntaxError | RangeError | TypeError.

Inductive completion (A : Type) : Type :=
| Normal (a : A)
| Throw (e : JsError).
Arguments Normal {A} a.
Arguments Throw {A} e.

(** A call of [getSuggestions]: its body has no [throw] and calls nothing
    that throws, whatever [limit] is. *)
Definition getSuggestionsCall (t : Trie) (prefix : str) (limit : Z)
  : completion (list str) :=
  Normal (getSuggestions t prefix limit).

(* ------------------------------------------------------------------ *)
(** ** KMP.js

    [TextEditor.jsx] imports [kmpSearch] from [./KMP], which is not among
    the sources. *)

Module KMP.

(** Modelled from the spec: the comparison of the text character [c] with
    [pattern[j]] (absent from the sources with the rest of [KMP.js]). *)
Definition matchesAt (pattern : str) (j : nat) (c : char) : bool :=
  match nth_error pattern j with
  | Some x => char_eqb x c
  | None => false
  end.

(** Modelled from the spec: [KMP.js] is missing; section 4.2 has the scan
    keep the matched-prefix length [j] and on mismatch fall back [j] to the
    failure-table value instead of restarting from zero.  [advance] reads
    one character [c]: it falls back until [pattern[j] = c] and gives the
    new matched length.  [fuel] bounds the fall-backs; [j] of them are
    enough, as every table entry is below its index. *)
Fixpoint advance (fuel : nat) (pattern : str) (table : list nat) (c : char)
         (j : nat) : nat :=
  if matchesAt pattern j c then S j
  else
    match fuel, j with
    | S fuel', S j1 => advance fuel' pattern table c (nth j1 table 0)
    | _, _ => 0
    end.

(** Modelled from the spec: [KMP.js] is missing; the table holds, for each
    prefix length [k] of the pattern (entry [k - 1]), the length of the
    longest proper prefix of [pattern[0..k)] that is also a suffix of it.
    [build] extends the table by one entry per remaining character. *)
Fixpoint build (pattern rest : str) (table : list nat) (j : nat)
  : list nat :=
  match rest with
  | [] => table
  | c :: rest' =>
      let j' := advance j pattern table c j in
      build pattern rest' (table ++ [j']) j'
  end.

(** Modelled from the spec: [KMP.js] is missing; the partial-match table of
    section 4.2. *)
Definition failureTable (pattern : str) : list nat :=
  match pattern with
  | [] => []
  | _ :: rest => build pattern rest [0] 0
  end.

(** Modelled from the spec: [KMP.js] is missing; the scan of section 4.2,
    left to right over the text, [i] characters consumed and [j] matched;
    on [j] reaching the pattern's length the match start is recorded and
    [j] continues from the failure-table value for a full match. *)
Fixpoint scan (pattern : str) (table : list nat) (text : str) (i j : nat)
         (res : list nat) : list nat :=
  match text with
  | [] => res
  | c :: text' =>
      let j' := advance j pattern table c j in
      if j' =? length pattern
      then scan pattern table text' (S i) (nth (j' - 1) table 0)
                (res ++ [S i - j'])
      else scan pattern table text' (S i) j' res
  end.

(** Modelled from the spec: [KMP.js] is missing; [findAll(text, pattern)]
    of section 4.2: an empty pattern gives the empty match list, any other
    pattern the offsets found by the failure-function scan. *)
Definition kmpSearch (text pattern : str) : list nat :=
  match pattern with
  | [] => []
  | _ => scan pattern (failureTable pattern) text 0 0 []
  end.

(** The pattern occurs in the text at [offset]:
    [t.substring(offset, offset + p.length) == p]. *)
Definition occursAt (text pattern : str) (offset : nat) : Prop :=
  substring text offset (offset + length pattern) = pattern.

(** [border P w k]: the first [k] characters of the pattern [P] end
    [w]. *)
Definition border (P w : str) (k : nat) : Prop :=
  k <= length P /\ k <= length w /\ firstn k P = skipn (length w - k) w.

(** [b] is the length of the longest proper prefix of [P[0..k)] that is
    also a suffix of it. *)
Definition longestProperBorder (P : str) (k b : nat) : Prop :=
  b < k /\ border P (firstn k P) b /\
  forall b', b' < k -> border P (firstn k P) b' -> b' <= b.

(** The entries of a table, as far as it goes, are what section 4.2 asks
    of the partial-match table. *)
Definition tableOk (P : str) (table : list nat) : Prop :=
  length table <= length P /\
  forall k, 1 <= k <= length table ->
            longestProperBorder P k (nth (k - 1) table 0).

(** What the scan has recorded once [i] characters of [T] are consumed:
    the offsets of the occurrences that end by then, in increasing
    order. *)
Definition found (P T : str) (i : nat) (res : list nat) : Prop :=
  StronglySorted lt res /\
  forall o, In o res <-> o + length P <= i /\ occursAt T P o.

End KMP.

(* ------------------------------------------------------------------ *)
(** ** The built-ins [RegExp] and [String.prototype.replace]

    [handleTextChange] builds a regular expression from the text the user
    typed.  The model covers a fragment of the pattern language of
    ECMAScript (no flags): pattern characters, [.], the assertions [^] and
    [$], alternation, capturing groups and the quantifiers [*], [+], [?],
    greedy or lazy.  A pattern with a backslash, a character class, a brace
    or a group that starts with [(?] is outside the fragment, and so is a
    replacement text with a [$]: the model answers [None] there. *)

Module RegExp.

Inductive quantifier : Type := Star | Plus | Opt.

Inductive regex : Type :=
| Empty
| Chr (c : char)
| Dot
| AssertStart
| AssertEnd
| Seq (r1 r2 : regex)
| Alt (r1 r2 : regex)
| Group (r : regex)
| Repeat (q : quantifier) (greedy : bool) (r : regex).

(** What the parser knows of a term: whether a quantifier may follow. *)
Inductive termKind : Type := Atom | Assertion | Quantified | QuantifiedLazy.

(** A disjunction being read: the alternatives already closed and the terms
    of the open one, the most recent first in both. *)
Record frame : Type :=
  mkFrame { alts : list regex; terms : list (regex * termKind) }.

Definition emptyFrame : frame := mkFrame [] [].

Definition seqOf (ts : list (regex * termKind)) : regex :=
  fold_left (fun acc t => Seq (fst t) acc) ts Empty.

Definition close (f : frame) : regex :=
  fold_left (fun acc a => Alt a acc) (alts f) (seqOf (terms f)).

Definition addTerm (f : frame) (r : regex) (k : termKind) : frame :=
  mkFrame (alts f) ((r, k) :: terms f).

Definition isChar (x c : char) : bool := char_eqb x c.
Arguments isChar (x c)%_char_scope.

Definition quantifierOf (c : char) : option quantifier :=
  if isChar "*" c then Some Star
  else if isChar "+" c then Some Plus
  else if isChar "?" c then Some Opt
  else None.

(** A quantifier character after the terms [ts]: it applies to an atom,
    a [?] makes a greedy quantifier lazy, and anywhere else there is
    nothing to repeat. *)
Definition quantify (c : char) (q : quantifier)
           (ts : list (regex * termKind)) : option (list (regex * termKind)) :=
  match ts with
  | (r, Atom) :: ts' => Some ((Repeat q true r, Quantified) :: ts')
  | (Repeat q0 true r, Quantified) :: ts' =>
      if isChar "?" c then Some ((Repeat q0 false r, QuantifiedLazy) :: ts')
      else None
  | _ => None
  end.

(** [new RegExp(pattern)]: [Some (Normal r)] for a pattern of the fragment,
    [Some (Throw SyntaxError)] for an ill-formed one, [None] outside the
    fragment.  [cur] is the disjunction being read and [stack] the ones
    around the groups not yet closed. *)
Fixpoint parse (p : str) (cur : frame) (stack : list frame)
  : option (completion regex) :=
  match p with
  | [] =>
      match stack with
      | [] => Some (Normal (close cur))
      | _ :: _ => Some (Throw SyntaxError)
      end
  | c :: rest =>
      if isChar "(" c then
        match rest with
        | c' :: _ =>
            if isChar "?" c' then None else parse rest emptyFrame (cur :: stack)
        | [] => parse rest emptyFrame (cur :: stack)
        end
      else if isChar ")" c then
        match stack with
        | [] => Some (Throw SyntaxError)
        | parent :: stack' =>
            parse rest (addTerm parent (Group (close cur)) Atom) stack'
        end
      else if isChar "|" c then
        parse rest (mkFrame (seqOf (terms cur) :: alts cur) []) stack
      else
        match quantifierOf c with
        | Some q =>
            match quantify c q (terms cur) with
            | Some ts => parse rest (mkFrame (alts cur) ts) stack
            | None => Some (Throw SyntaxError)
            end
        | None =>
            if isChar "\" c || isChar "[" c || isChar "{" c then None
            else if isChar "." c then parse rest (addTerm cur Dot Atom) stack
            else if isChar "^" c then
              parse rest (addTerm cur AssertStart Assertion) stack
            else if isChar "$" c then
              parse rest (addTerm cur AssertEnd Assertion) stack
            else parse rest (addTerm cur (Chr c) Atom) stack
        end
  end.

Definition new (pattern : str) : option (completion regex) :=
  parse pattern emptyFrame [].

Definition orElse {A} (a b : option A) : option A :=
  match a with Some x => Some x | None => b end.

(** The line terminators [.] does not match. *)
Definition isLineTerminator (c : char) : bool :=
  let n := nat_of_ascii c in (n =? 10) || (n =? 13).

Section Matcher.
  (** The length of the whole input: [^] holds where all of it remains. *)
Variable n : nat.

  (** The iterations of an unbounded quantifier once its minimum is met:
      an iteration that consumes nothing fails.  [fuel] is the number of
      characters left, which every iteration lowers. *)
Fixpoint iterate (step : str -> (str -> option str) -> option str)
           (greedy : bool) (fuel : nat) (s : str) (k : str -> option str)
    : option str :=
    match fuel with
    | 0 => k s
    | S fuel' =>
        let again :=
          step s (fun s' =>
                    if length s' <? length s
                    then iterate step greedy fuel' s' k
                    else None) in
        if greedy then orElse again (k s) else orElse (k s) again
    end.

  (** The backtracking matcher: [matchRe r s k] matches [r] at the front of
      [s] and hands what remains to the continuation [k]. *)
Fixpoint matchRe (r : regex) (s : str) (k : str -> option str)
    : option str :=
    match r with
    | Empty => k s
    | Chr c =>
        match s with
        | x :: s' => if char_eqb x c then k s' else None
        | [] => None
        end
    | Dot =>
        match s with
        | x :: s' => if isLineTerminator x then None else k s'
        | [] => None
        end
    | AssertStart => if length s =? n then k s else None
    | AssertEnd => match s with [] => k s | _ :: _ => None end
    | Seq r1 r2 => matchRe r1 s (fun s' => matchRe r2 s' k)
    | Alt r1 r2 => orElse (matchRe r1 s k) (matchRe r2 s k)
    | Group r1 => matchRe r1 s k
    | Repeat Star greedy r1 =>
        iterate (matchRe r1) greedy (length s) s k
    | Repeat Plus greedy r1 =>
        matchRe r1 s
                (fun s' => iterate (matchRe r1) greedy (length s') s' k)
    | Repeat Opt greedy r1 =>
        let once :=
          matchRe r1 s (fun s' => if length s' <? length s then k s'
                                  else None) in
        if greedy then orElse once (k s) else orElse (k s) once
    end.

  (** The first start index, from [i] on, at which [r] matches, with what
      follows the match. *)
Fixpoint searchFrom (r : regex) (s : str) (i : nat) {struct s}
    : option (nat * str) :=
    match matchRe r s (fun s' => Some s') with
    | Some rest => Some (i, rest)
    | None =>
        match s with
        | [] => None
        | _ :: s' => searchFrom r s' (S i)
        end
    end.
End Matcher.

(** The leftmost match of [r] in [input]. *)
Definition exec (r : regex) (input : str) : option (nat * str) :=
  searchFrom (length input) r input 0.

(** [value.replace(re, replacement)] for a regular expression without the
    [g] flag: the leftmost match is replaced, and a text without a match
    comes back as it is. *)
Definition replace (value : str) (re : regex) (replacement : str)
  : option str :=
  if existsb (isChar "$") replacement then None
  else
    match exec re value with
    | None => Some value
    | Some (i, rest) => Some (firstn i value ++ replacement ++ rest)
    end.

(** A pattern character that stands for itself wherever it is. *)
Definition plainChar (c : char) : bool :=
  negb (isChar "(" c || isChar ")" c || isChar "|" c || isChar "*" c
        || isChar "+" c || isChar "?" c || isChar "\" c || isChar "[" c
        || isChar "{" c || isChar "." c || isChar "^" c || isChar "$" c).

(** The expression of the pattern [lit ++ "$"] for plain characters. *)
Definition literal (lit : str) : regex :=
  fold_right (fun c acc => Seq (Chr c) acc) (Seq AssertEnd Empty) lit.
End RegExp.

(* ------------------------------------------------------------------ *)
(** ** SpellChecker.js

    [TextEditor.jsx] imports [getCorrection] from [./SpellChecker], which
    is not among the sources. *)

Module SpellChecker.

(** Modelled from the spec: [SpellChecker.js] is missing; one row of the
    dynamic-programming table of the edit distance, for the character [x]
    of the first word against the second word [b]; [prev] is the row
    above and [left] the entry just computed. *)
Fixpoint nextRow (x : char) (b : str) (prev : list nat) (left : nat)
  : list nat :=
  match b, prev with
  | y :: b', diag :: ((up :: _) as prev') =>
      let v := Nat.min (Nat.min (up + 1) (left + 1))
                       (diag + if char_eqb x y then 0 else 1) in
      v :: nextRow x b' prev' v
  | _, _ => []
  end.

(** Modelled from the spec: [SpellChecker.js] is missing; the edit distance
    of section 4.3, the least number of single-character insertions,
    deletions and substitutions that turn [a] into [b]. *)
Definition editDistance (a b : str) : nat :=
  last (fold_left (fun row x => let first := hd 0 row + 1 in
                                first :: nextRow x b row first)
                  a (seq 0 (S (length b)))) 0.

(** Modelled from the spec: [SpellChecker.js] is missing; the vocabulary
    word closest to [word], the first one in the enumeration among equals,
    with its distance; both words are lowercased before they are
    compared. *)
Fixpoint closest (word : str) (vocabulary : list str)
  : option (str * nat) :=
  match vocabulary with
  | [] => None
  | v :: rest =>
      let d := editDistance (toLowerCase word) (toLowerCase v) in
      match closest word rest with
      | Some (v', d') => if d' <? d then Some (v', d') else Some (v, d)
      | None => Some (v, d)
      end
  end.

(** Modelled from the spec: [SpellChecker.js] is missing;
    [correct(word, vocabulary, maxDistance)] of section 4.3: a word of the
    vocabulary comes back unchanged, and so does a word whose closest
    vocabulary word is further than [maxDistance]. *)
Definition correct (word : str) (vocabulary : list str) (maxDistance : nat)
  : str :=
  if existsb (str_eqb word) vocabulary then word
  else
    match closest word vocabulary with
    | Some (v, d) => if d <=? maxDistance then v else word
    | None => word
    end.

(** Modelled from the spec: [SpellChecker.js] is missing; the vocabulary
    the corrector shares with the trie, in lexicographic enumeration. *)
Definition vocabulary : list str :=
  map js ["appetite"; "apple"; "application"; "banana"; "band"; "banner";
          "cat"; "catalog"; "cater"]%string.

(** Modelled from the spec: [SpellChecker.js] is missing; the call
    [getCorrection(last)] of the editor, with the recommended maximum
    distance 2. *)
Definition getCorrection (word : str) : str := correct word vocabulary 2.

End SpellChecker.

(* ------------------------------------------------------------------ *)
(** ** TextEditor.jsx: the state of the component and its handlers *)

(** [String.prototype.trim] *)
Fixpoint trimStart (s : str) : str :=
  match s with
  | [] => []
  | c :: rest => if isWhiteSpace c then trimStart rest else s
  end.

Definition trim (s : str) : str := rev (trimStart (rev (trimStart s))).

(** [value.split(/\s+/)]: the pieces between the maximal runs of white
    space; [cur] is the piece being read and [inGap] tells that the last
    character was white space. *)
Fixpoint splitAux (s cur : str) (inGap : bool) : list str :=
  match s with
  | [] => [cur]
  | c :: rest =>
      if isWhiteSpace c
      then (if inGap then splitAux rest [] true
            else cur :: splitAux rest [] true)
      else splitAux rest (cur ++ [c]) false
  end.

Definition splitWhitespace (value : str) : list str := splitAux value [] false.

(** The five [useState] cells. *)
Record EditorState : Type := mkEditorState {
  text : str;
  pattern : str;
  matches : list nat;
  current : Z;
  suggestions : list str
}.

Definition initialState : EditorState :=
  mkEditorState
    (js "Type here. Try words like 'ban', 'app', or misspell a word like 'recieve'.")
    [] [] (-1)%Z [].

Definition setText (v : str) (st : EditorState) : EditorState :=
  mkEditorState v (pattern st) (matches st) (current st) (suggestions st).
Definition setPattern (v : str) (st : EditorState) : EditorState :=
  mkEditorState (text st) v (matches st) (current st) (suggestions st).
Definition setMatches (v : list nat) (st : EditorState) : EditorState :=
  mkEditorState (text st) (pattern st) v (current st) (suggestions st).
Definition setCurrent (v : Z) (st : EditorState) : EditorState :=
  mkEditorState (text st) (pattern st) (matches st) v (suggestions st).
Definition setSuggestions (v : list str) (st : EditorState) : EditorState :=
  mkEditorState (text st) (pattern st) (matches st) (current st) v.

Section Session.
  (** The two imports that are not among the sources. *)
Variable getCorrection : str -> str.
Variable kmpSearch : str -> str -> list nat.

  (** The trie of the component. *)
Variable trie : Trie.

  (** The replacement of line 32,
      [value.replace(new RegExp(last + "$"), corrected)]. *)
Definition replaceLast (value last corrected : str)
    : option (completion str) :=
    match RegExp.new (last ++ js "$") with
    | None => None
    | Some (Throw e) => Some (Throw e)
    | Some (Normal re) =>
        match RegExp.replace value re corrected with
        | None => None
        | Some value' => Some (Normal value')
        end
    end.

  (** [handleTextChange(e)] with [e.target.value = value].  [None]: the
      call leaves the modelled fragment of [RegExp]. *)
Definition handleTextChange (st : EditorState) (value : str)
    : option (completion EditorState) :=
    let words := splitWhitespace value in
    let last := List.last words [] in
    if 2 <? length last then
      let corrected := getCorrection last in
      let replaced :=
        if negb (str_eqb corrected last)
        then replaceLast value last corrected
        else Some (Normal value) in
      match replaced with
      | None => None
      | Some (Throw e) => Some (Throw e)
      | Some (Normal value') =>
          let sug := getSuggestions trie last 3 in
          Some (Normal (setText value' (setSuggestions sug st)))
      end
    else Some (Normal (setText value (setSuggestions [] st))).

  (** The effect on [text, pattern] (lines 45-54). *)
Definition searchEffect (st : EditorState) : EditorState :=
    match trim (pattern st) with
    | [] => setCurrent (-1)%Z (setMatches [] st)
    | _ :: _ =>
        let m := kmpSearch (text st) (pattern st) in
        setCurrent (match m with [] => (-1)%Z | _ :: _ => 0%Z end)
                   (setMatches m st)
    end.

  (** The click handlers of the Prev and Next buttons (lines 105-106);
      [%] is the remainder of the truncated division, [Z.rem]. *)
Definition clickPrev (st : EditorState) : EditorState :=
    let n := Z.of_nat (length (matches st)) in
    setCurrent (if (n =? 0)%Z then (-1)%Z
                else Z.rem (current st - 1 + n) n) st.

Definition clickNext (st : EditorState) : EditorState :=
    let n := Z.of_nat (length (matches st)) in
    setCurrent (if (n =? 0)%Z then (-1)%Z
                else Z.rem (current st + 1) n) st.
End Session.

(* ------------------------------------------------------------------ *)
(** ** The trie: what it stores *)

(** The words below a node, each as the characters that lead from the node
    to a node with [isEnd], in the order in which [dfs] meets them: the
    node's own word first, then the words of each child in the order of
    [Object.entries]. *)
Fixpoint allWords (n : TrieNode) : list str :=
  match n with
  | mkTrieNode kids fin =>
      (if fin then [[]] else [])
      ++ (fix each (es : list (char * TrieNode)) : list str :=
            match es with
            | [] => []
            | (k, c) :: rest => map (cons k) (allWords c) ++ each rest
            end) (Obj.entries kids)
  end.

(** No node has two entries with one key, as in a JavaScript object. *)
#[warnings="-register-all"]
Inductive UniqueKeys : TrieNode -> Prop :=
| UniqueKeys_node kids fin :
    NoDup (map fst kids) ->
    Forall (fun e => UniqueKeys (snd e)) kids ->
    UniqueKeys (mkTrieNode kids fin).

(** How many more strings [dfs] may push: [limit - results.length], or
    none when that is negative. *)
Definition room (limit : Z) (results : list str) : nat :=
  Z.to_nat (limit - Z.of_nat (length results)).

(* ------------------------------------------------------------------ *)
(** ** TextEditor.jsx: highlighting and the click on a suggestion *)

(** [s.slice(a, b)] for non-negative integers: empty when [a >= b] or when
    [a] is beyond the end, cut at the end of [s]. *)
Definition slice (s : str) (a b : nat) : str := firstn (b - a) (skipn a s).

(** The two halves of the template literal of line 62. *)
Definition markOpen : str :=
  js "<mark class=" ++ [ascii_of_nat 34] ++ js "match" ++ [ascii_of_nat 34]
  ++ js ">".
Definition markClose : str := js "</mark>".

Section Highlight.
(** [escapeHtml] is imported from [./KMP], which is not among the
    sources. *)
Variable escapeHtml : str -> str.

(** One round of the [forEach] of [highlightText]: [acc] holds [out] and
    [last]; [plen] is [pattern.length]. *)
Definition highlightStep (txt : str) (plen : nat) (acc : str * nat)
           (idx : nat) : str * nat :=
  (fst acc ++ escapeHtml (slice txt (snd acc) idx)
       ++ markOpen ++ escapeHtml (slice txt idx (idx + plen)) ++ markClose,
   idx + plen).

(** [highlightText()] (lines 57-67). *)
Definition highlightText (st : EditorState) : str :=
  match matches st with
  | [] => escapeHtml (text st)
  | _ :: _ =>
      let acc := fold_left (highlightStep (text st) (length (pattern st)))
                           (matches st) ([], 0) in
      fst acc ++ escapeHtml (skipn (snd acc) (text st))
  end.

(** The output of [highlightText], piece by piece: a slice of the text as
    it is, and whether it stands between the mark tags. *)
Definition renderPiece (p : bool * str) : str :=
  if fst p then markOpen ++ escapeHtml (snd p) ++ markClose
  else escapeHtml (snd p).
End Highlight.

(** The slices [highlightText] takes from the text for the matches [ms],
    from the position [from] on. *)
Fixpoint highlightPieces (txt : str) (plen from : nat) (ms : list nat)
  : list (bool * str) :=
  match ms with
  | [] => [(false, skipn from txt)]
  | idx :: rest =>
      (false, slice txt from idx) :: (true, slice txt idx (idx + plen))
      :: highlightPieces txt plen (idx + plen) rest
  end.

(** No match starts before the end of the one before it. *)
Fixpoint separated (plen from : nat) (ms : list nat) : Prop :=
  match ms with
  | [] => True
  | idx :: rest => from <= idx /\ separated plen (idx + plen) rest
  end.

(** [words.join(sep)] *)
Fixpoint join (sep : str) (ws : list str) : str :=
  match ws with
  | [] => []
  | w :: rest =>
      match rest with
      | [] => w
      | _ :: _ => w ++ sep ++ join sep rest
      end
  end.

(** [words[words.length - 1] = word] on an array that is not empty. *)
Definition setLast (ws : list str) (word : str) : list str :=
  match ws with
  | [] => []
  | _ :: _ => removelast ws ++ [word]
  end.

(** [handleSuggestionClick(word)] (lines 77-82). *)
Definition handleSuggestionClick (word : str) (st : EditorState)
  : EditorState :=
  let words := splitWhitespace (text st) in
  setSuggestions []
    (setText (join (js " ") (setLast words word) ++ js " ") st).

(** The current-match index fits the match list: [-1] without a match, an
    index of the list otherwise. *)
Definition indexOk (st : EditorState) : Prop :=
  (matches st = [] /\ current st = (-1)%Z)
  \/ (0 <= current st < Z.of_nat (length (matches st)))%Z.

(** The clicks on Prev and Next. *)
Inductive click : Type := Prev | Next.

Definition doClick (c : click) (st : EditorState) : EditorState :=
  match c with Prev => clickPrev st | Next => clickNext st end.

(** A piece without white space. *)
Definition noWhiteSpace (w : str) : Prop := existsb isWhiteSpace w = false.

(** What [split] gives: pieces without white space, of which only the
    first and the last may be empty. *)
Definition splitShape (ws : list str) : Prop :=
  ws <> [] /\ Forall noWhiteSpace ws
  /\ Forall (fun w => w <> []) (removelast (tl ws)).

(** A state of the editor on the third of three matches. *)
Definition bananaState : EditorState :=
  mkEditorState (js "banana bandana band") (js "ban") [0; 7; 15] 2 [].

(* ================================================================== *)
(** * Properties *)

Example getSuggestions_app :
  getSuggestions seedTrie (js "app") 3
  = map js ["apple"; "application"; "appetite"]%string.
Proof. vm_compute. reflexivity. Qed.
(** ** Strings *)

Lemma char_eqb_eq (a b : char) : char_eqb a b = true <-> a = b.
Proof. apply Ascii.eqb_eq. Qed.

Lemma char_eqb_refl (a : char) : char_eqb a a = true.
Proof. apply Ascii.eqb_refl. Qed.

Lemma char_eqb_neq (a b : char) : char_eqb a b = false <-> a <> b.
Proof. apply Ascii.eqb_neq. Qed.

Lemma str_eqb_eq (a b : str) : str_eqb a b = true <-> a = b.
Proof.
  revert b; induction a as [|x a IH]; intros [|y b]; simpl;
    try (split; [discriminate | discriminate]); [tauto|].
  rewrite andb_true_iff, char_eqb_eq, IH.
  split; [intros [-> ->]; reflexivity | intros H; inversion H; auto].
Qed.

Lemma str_eqb_refl (a : str) : str_eqb a a = true.
Proof. apply str_eqb_eq; reflexivity. Qed.

Lemma lowerChar_idem (c : char) : lowerChar (lowerChar c) = lowerChar c.
Proof.
  destruct c as [[] [] [] [] [] [] [] []]; vm_compute; reflexivity.
Qed.

Lemma toLowerCase_idem (s : str) : toLowerCase (toLowerCase s) = toLowerCase s.
Proof.
  unfold toLowerCase; rewrite map_map.
  apply map_ext; intros c; apply lowerChar_idem.
Qed.

Lemma toLowerCase_app (a b : str) :
  toLowerCase (a ++ b) = toLowerCase a ++ toLowerCase b.
Proof. apply map_app. Qed.

Lemma toLowerCase_length (s : str) : length (toLowerCase s) = length s.
Proof. apply length_map. Qed.

(** A string is in lower case when every character is its own lower case. *)
Lemma toLowerCase_fixed (s : str) :
  toLowerCase s = s <-> Forall (fun c => lowerChar c = c) s.
Proof.
  induction s as [|c s IH]; simpl.
  - split; auto.
  - split.
    + intros H; injection H as Hc Hs; constructor;
        [exact Hc | apply IH; exact Hs].
    + intros H; inversion H as [|? ? Hc Hs]; subst.
      rewrite Hc; f_equal; apply IH; assumption.
Qed.

(** ** Objects *)

Module ObjFacts.
Section ObjFacts.
Context {V : Type}.
Implicit Types (o : Obj.t V) (k : char) (v : V).

Lemma get_replace_same o k v :
    Obj.has o k = true -> Obj.get (Obj.replace o k v) k = Some v.
  Proof.
    unfold Obj.has; induction o as [|[k' v'] o IH]; simpl; [discriminate|].
    destruct (char_eqb k' k) eqn:E; simpl.
    - rewrite char_eqb_refl; reflexivity.
    - rewrite E; exact IH.
  Qed.

Lemma get_create_same o k v :
    Obj.has o k = false -> Obj.get (Obj.create o k v) k = Some v.
  Proof.
    unfold Obj.has; induction o as [|[k' v'] o IH]; simpl.
    - rewrite char_eqb_refl; reflexivity.
    - destruct (char_eqb k' k) eqn:E; [discriminate|].
      intros H; destruct (Obj.before k k'); simpl.
      + rewrite char_eqb_refl; reflexivity.
      + rewrite E; apply IH; exact H.
  Qed.

Lemma get_set_same o k v : Obj.get (Obj.set o k v) k = Some v.
  Proof.
    unfold Obj.set; destruct (Obj.has o k) eqn:E;
      [apply get_replace_same | apply get_create_same]; exact E.
  Qed.

Lemma get_replace_other o k k' v :
    k <> k' -> Obj.get (Obj.replace o k v) k' = Obj.get o k'.
  Proof.
    intros Hne; induction o as [|[k0 v0] o IH]; simpl; [reflexivity|].
    destruct (char_eqb k0 k) eqn:E; simpl.
    - apply char_eqb_eq in E; subst k0.
      apply char_eqb_neq in Hne; rewrite Hne; reflexivity.
    - rewrite IH; reflexivity.
  Qed.

Lemma get_create_other o k k' v :
    k <> k' -> Obj.get (Obj.create o k v) k' = Obj.get o k'.
  Proof.
    intros Hne; pose proof Hne as Hb; apply char_eqb_neq in Hb.
    induction o as [|[k0 v0] o IH]; simpl.
    - rewrite Hb; reflexivity.
    - destruct (Obj.before k k0); simpl.
      + rewrite Hb; reflexivity.
      + rewrite IH; reflexivity.
  Qed.

Lemma get_set_other o k k' v :
    k <> k' -> Obj.get (Obj.set o k v) k' = Obj.get o k'.
  Proof.
    intros Hne; unfold Obj.set; destruct (Obj.has o k);
      [apply get_replace_other | apply get_create_other]; exact Hne.
  Qed.

Lemma has_set o k v : Obj.has (Obj.set o k v) k = true.
  Proof. unfold Obj.has at 1; rewrite get_set_same; reflexivity. Qed.

Lemma replace_replace o k v v' :
    Obj.replace (Obj.replace o k v) k v' = Obj.replace o k v'.
  Proof.
    induction o as [|[k0 v0] o IH]; simpl; [reflexivity|].
    destruct (char_eqb k0 k) eqn:E; simpl.
    - rewrite char_eqb_refl; reflexivity.
    - rewrite E, IH; reflexivity.
  Qed.

Lemma replace_create o k v v' :
    Obj.has o k = false ->
    Obj.replace (Obj.create o k v) k v' = Obj.create o k v'.
  Proof.
    unfold Obj.has; induction o as [|[k0 v0] o IH]; simpl.
    - rewrite char_eqb_refl; reflexivity.
    - destruct (char_eqb k0 k) eqn:E; [discriminate|]; intros H.
      destruct (Obj.before k k0); simpl.
      + rewrite char_eqb_refl; reflexivity.
      + rewrite E, IH by exact H; reflexivity.
  Qed.

  (** Writing a property twice leaves what the second write alone leaves. *)
Lemma set_set o k v v' : Obj.set (Obj.set o k v) k v' = Obj.set o k v'.
  Proof.
    unfold Obj.set at 1; rewrite has_set.
    unfold Obj.set; destruct (Obj.has o k) eqn:E.
    - apply replace_replace.
    - apply replace_create; exact E.
  Qed.

Lemma get_In o k v : Obj.get o k = Some v -> In (k, v) o.
  Proof.
    induction o as [|[k0 v0] o IH]; simpl; [discriminate|].
    destruct (char_eqb k0 k) eqn:E.
    - apply char_eqb_eq in E; subst k0; intros H; inversion H; auto.
    - intros H; right; apply IH; exact H.
  Qed.

Lemma Forall_replace (P : char * V -> Prop) o k v :
    Forall P o -> P (k, v) -> Forall P (Obj.replace o k v).
  Proof.
    intros Ho Hk; induction Ho as [|[k0 v0] o H0 Ho IH]; simpl; [constructor|].
    destruct (char_eqb k0 k); constructor; assumption.
  Qed.

Lemma Forall_create (P : char * V -> Prop) o k v :
    Forall P o -> P (k, v) -> Forall P (Obj.create o k v).
  Proof.
    intros Ho Hk; induction Ho as [|[k0 v0] o H0 Ho IH]; simpl.
    - constructor; [assumption | constructor].
    - destruct (Obj.before k k0); repeat constructor; assumption.
  Qed.

Lemma Forall_set (P : char * V -> Prop) o k v :
    Forall P o -> P (k, v) -> Forall P (Obj.set o k v).
  Proof.
    intros Ho Hk; unfold Obj.set; destruct (Obj.has o k);
      [apply Forall_replace | apply Forall_create]; assumption.
  Qed.
End ObjFacts.
End ObjFacts.

(** ** The trie *)

Lemma walk_path n s n' : walk n s = Some n' <-> path n s n'.
Proof.
  revert n; induction s as [|ch rest IH]; intros n; simpl.
  - split.
    + intros H; inversion H; constructor.
    + intros H; inversion H; reflexivity.
  - split.
    + destruct (Obj.get (children n) ch) as [next|] eqn:E; [|discriminate].
      intros H; econstructor; [exact E | apply IH; exact H].
    + intros H; inversion H as [|? ? next ? ? Hget Hp]; subst.
      rewrite Hget; apply IH; exact Hp.
Qed.

(** The body of [dfs], with its loop over [Object.entries] as a fold. *)
Lemma dfs_eq limit prefix kids fin p results :
  dfs limit prefix (mkTrieNode kids fin) p results =
  if (Z.of_nat (length results) >=? limit)%Z then results
  else fold_left
         (fun acc e => dfs limit prefix (snd e) (p ++ [fst e]) acc)
         (Obj.entries kids)
         (if fin then results ++ [prefix ++ p] else results).
Proof.
  simpl. destruct (Z.of_nat (length results) >=? limit)%Z; [reflexivity|].
  unfold Obj.entries.
  generalize (if fin then results ++ [prefix ++ p] else results).
  induction kids as [|[ch next] kids IH]; intros acc; simpl; [reflexivity|].
  apply IH.
Qed.

(** [dfs] only pushes: it extends [results], and each string it adds is
    the prefix, then the path to the node, then a word spelt below it. *)
Lemma dfs_spec limit prefix curr :
  forall p results,
  exists more,
    dfs limit prefix curr p results = results ++ more /\
    Forall (fun r => exists q, r = prefix ++ p ++ q /\ spells curr q) more.
Proof.
  induction curr as [kids fin IH] using TrieNode_ind; intros p results.
  rewrite dfs_eq.
  destruct (Z.of_nat (length results) >=? limit)%Z.
  { exists []; split; [rewrite app_nil_r; reflexivity | constructor]. }
  assert (Hstart : exists m0,
             (if fin then results ++ [prefix ++ p] else results)
             = results ++ m0 /\
             Forall (fun r => exists q, r = prefix ++ p ++ q /\
                                        spells (mkTrieNode kids fin) q) m0).
  { destruct fin.
    - exists [prefix ++ p]; split; [reflexivity|].
      constructor; [|constructor].
      exists []; split; [rewrite app_nil_r; reflexivity | constructor].
    - exists []; split; [rewrite app_nil_r; reflexivity | constructor]. }
  destruct Hstart as (m0 & -> & Hm0).
  unfold Obj.entries.
  assert (Hfold : forall l, incl l kids -> forall m,
             Forall (fun r => exists q, r = prefix ++ p ++ q /\
                                        spells (mkTrieNode kids fin) q) m ->
             exists more,
               fold_left
                 (fun acc e => dfs limit prefix (snd e) (p ++ [fst e]) acc)
                 l (results ++ m) = results ++ more /\
               Forall (fun r => exists q, r = prefix ++ p ++ q /\
                                          spells (mkTrieNode kids fin) q) more).
  { induction l as [|[k c] l IHl]; intros Hsub m Hm; simpl.
    - exists m; split; [reflexivity | exact Hm].
    - assert (Hin : In (k, c) kids) by (apply Hsub; left; reflexivity).
      pose proof (proj1 (Forall_forall _ _) IH (k, c) Hin) as IHc.
      simpl in IHc.
      destruct (IHc (p ++ [k]) (results ++ m)) as (m1 & -> & Hm1).
      rewrite <- app_assoc.
      apply IHl.
      + intros e He; apply Hsub; right; exact He.
      + apply Forall_app; split; [exact Hm|].
        eapply Forall_impl; [|exact Hm1].
        intros r (q & -> & Hq); exists (k :: q); split.
        * rewrite <- app_assoc; reflexivity.
        * econstructor; eassumption. }
  apply Hfold; [apply incl_refl | exact Hm0].
Qed.

(** [dfs] never lets [results] grow beyond a limit it has not yet passed. *)
Lemma dfs_length limit prefix curr :
  forall p results,
    (Z.of_nat (length results) <= limit)%Z ->
    (Z.of_nat (length (dfs limit prefix curr p results)) <= limit)%Z.
Proof.
  induction curr as [kids fin IH] using TrieNode_ind; intros p results Hle.
  rewrite dfs_eq.
  destruct (Z.of_nat (length results) >=? limit)%Z eqn:E; [exact Hle|].
  rewrite Z.geb_leb in E; apply Z.leb_gt in E.
  assert (Hstart :
    (Z.of_nat (length (if fin then results ++ [prefix ++ p] else results))
     <= limit)%Z).
  { destruct fin; [|exact Hle].
    rewrite length_app; simpl; lia. }
  revert Hstart.
  generalize (if fin then results ++ [prefix ++ p] else results).
  unfold Obj.entries.
  induction IH as [|e l He _ IHl]; intros acc Hacc; simpl; [exact Hacc|].
  apply IHl, He, Hacc.
Qed.

Lemma in_getSuggestions t prefix limit r :
  In r (getSuggestions t prefix limit) ->
  exists node q,
    walk (root t) (toLowerCase prefix) = Some node /\
    r = prefix ++ q /\ spells node q.
Proof.
  unfold getSuggestions.
  destruct (walk (root t) (toLowerCase prefix)) as [node|]; [|intros []].
  destruct (dfs_spec limit prefix node [] []) as (more & -> & Hmore).
  simpl; intros Hin.
  destruct (proj1 (Forall_forall _ _) Hmore r Hin) as (q & -> & Hq).
  exists node, q; auto.
Qed.

(** ** Words kept by [insert] *)

Lemma contains_insertFrom n w : contains (insertFrom n w) w = true.
Proof.
  unfold contains; revert n; induction w as [|ch rest IH]; intros n; simpl.
  - reflexivity.
  - rewrite ObjFacts.get_set_same; apply IH.
Qed.

Lemma contains_insertFrom_mono n w w' :
  contains n w' = true -> contains (insertFrom n w) w' = true.
Proof.
  unfold contains; revert n w'; induction w as [|ch rest IH];
    intros n w'; simpl.
  - destruct w' as [|ch' rest']; simpl; [reflexivity|].
    intros H; exact H.
  - destruct w' as [|ch' rest']; simpl; [intros H; exact H|].
    destruct (Ascii.ascii_dec ch ch') as [<-|Hne].
    + rewrite ObjFacts.get_set_same.
      destruct (Obj.get (children n) ch) as [c|]; [|discriminate].
      apply IH.
    + rewrite ObjFacts.get_set_other by exact Hne.
      intros H; exact H.
Qed.

Lemma contains_insertAll ws : forall t w,
  contains (root t) (toLowerCase w) = true ->
  contains (root (insertAll t ws)) (toLowerCase w) = true.
Proof.
  unfold insertAll; induction ws as [|x ws IH]; intros t w H; simpl.
  - exact H.
  - apply IH; simpl; apply contains_insertFrom_mono; exact H.
Qed.

Lemma contains_inserted ws : forall t w,
  In w ws -> contains (root (insertAll t ws)) (toLowerCase w) = true.
Proof.
  induction ws as [|x ws IH]; intros t w Hin; [destruct Hin|].
  destruct Hin as [->|Hin].
  - apply (contains_insertAll ws (insert t w) w).
    simpl; apply contains_insertFrom.
  - apply (IH (insert t x) w Hin).
Qed.

Lemma lower_toLowerCase (w : str) :
  Forall (fun c => lowerChar c = c) (toLowerCase w).
Proof. apply toLowerCase_fixed, toLowerCase_idem. Qed.

Lemma LowerKeys_new : LowerKeys newTrieNode.
Proof. constructor; constructor. Qed.

Lemma LowerKeys_get n ch c :
  LowerKeys n -> Obj.get (children n) ch = Some c -> LowerKeys c.
Proof.
  intros Hn Hget; destruct Hn as [kids fin _ Hkids]; simpl in Hget.
  apply ObjFacts.get_In in Hget.
  exact (proj1 (Forall_forall _ _) Hkids _ Hget).
Qed.

Lemma LowerKeys_insertFrom w : forall n,
  Forall (fun c => lowerChar c = c) w ->
  LowerKeys n -> LowerKeys (insertFrom n w).
Proof.
  induction w as [|ch rest IH]; intros n Hw Hn; simpl.
  - destruct Hn as [kids fin Hk Hc]; constructor; assumption.
  - inversion Hw as [|? ? Hch Hrest]; subst.
    assert (Hchild : LowerKeys
              match Obj.get (children n) ch with
              | Some c => c
              | None => newTrieNode
              end).
    { destruct (Obj.get (children n) ch) as [c|] eqn:E.
      - eapply LowerKeys_get; eassumption.
      - apply LowerKeys_new. }
    destruct Hn as [kids fin Hk Hc]; simpl in *.
    constructor; apply ObjFacts.Forall_set; simpl; auto.
Qed.

Lemma LowerKeys_insertAll ws : forall t,
  LowerKeys (root t) -> LowerKeys (root (insertAll t ws)).
Proof.
  unfold insertAll; induction ws as [|w ws IH]; intros t Ht; simpl.
  - exact Ht.
  - apply IH; simpl.
    apply LowerKeys_insertFrom; [apply lower_toLowerCase | exact Ht].
Qed.

Lemma LowerKeys_walk s : forall n n',
  LowerKeys n -> walk n s = Some n' -> LowerKeys n'.
Proof.
  induction s as [|ch rest IH]; intros n n' Hn; simpl.
  - intros H; inversion H; subst; exact Hn.
  - destruct (Obj.get (children n) ch) as [c|] eqn:E; [|discriminate].
    apply IH; eapply LowerKeys_get; eassumption.
Qed.

Lemma LowerKeys_spells n q :
  spells n q -> LowerKeys n -> toLowerCase q = q.
Proof.
  induction 1 as [kids|kids fin k c q Hin Hq IH]; intros Hn.
  - reflexivity.
  - inversion Hn as [? ? Hk Hc]; subst; simpl.
    rewrite (proj1 (Forall_forall _ _) Hk _ Hin : lowerChar k = k).
    f_equal; apply IH.
    exact (proj1 (Forall_forall _ _) Hc _ Hin).
Qed.

Lemma app_inj_length {A} (a c b d : list A) :
  a ++ b = c ++ d -> length a = length c -> a = c /\ b = d.
Proof.
  revert c; induction a as [|x a IH]; intros [|y c] H Hlen;
    simpl in *; try discriminate.
  - auto.
  - injection H as -> H; injection Hlen as Hlen.
    destruct (IH c H Hlen) as [-> ->]; auto.
Qed.

(** ** The claims on the trie *)

(** C2. For every prefix and every limit of the interface (an integer
    [>= 0]), [getSuggestions] returns the empty sequence when no node path
    of the trie matches the lowercased prefix, and in every case a sequence
    of at most [limit] words, each of which begins with the prefix. *)
Theorem getSuggestions_bounded_prefixed
        (t : Trie) (prefix : str) (limit : nat) :
  ((~ exists node, path (root t) (toLowerCase prefix) node) ->
   getSuggestions t prefix (Z.of_nat limit) = []) /\
  length (getSuggestions t prefix (Z.of_nat limit)) <= limit /\
  (forall r, In r (getSuggestions t prefix (Z.of_nat limit)) ->
             exists suffix, r = prefix ++ suffix).
Proof.
  split; [|split].
  - intros Hno; unfold getSuggestions.
    destruct (walk (root t) (toLowerCase prefix)) as [node|] eqn:E;
      [|reflexivity].
    exfalso; apply Hno; exists node; apply walk_path; exact E.
  - unfold getSuggestions.
    destruct (walk (root t) (toLowerCase prefix)) as [node|];
      [|simpl; lia].
    pose proof (dfs_length (Z.of_nat limit) prefix node [] []) as H.
    simpl in H; lia.
  - intros r Hin.
    destruct (in_getSuggestions _ _ _ _ Hin) as (node & q & _ & -> & _).
    exists q; reflexivity.
Qed.

Lemma getSuggestions_bounded_prefixed_witness :
  (~ exists node, path (root seedTrie) (toLowerCase (js "xyz")) node) /\
  getSuggestions seedTrie (js "xyz") (Z.of_nat 3) = [] /\
  length (getSuggestions seedTrie (js "App") (Z.of_nat 2)) <= 2 /\
  exists suffix, js "Apple" = js "App" ++ suffix.
Proof.
  assert (Hno : ~ exists node,
               path (root seedTrie) (toLowerCase (js "xyz")) node).
  { intros [node H]; apply walk_path in H; vm_compute in H; discriminate. }
  split; [exact Hno|].
  split; [exact (proj1 (getSuggestions_bounded_prefixed seedTrie (js "xyz") 3)
                       Hno)|].
  split; [exact (proj1 (proj2 (getSuggestions_bounded_prefixed
                                 seedTrie (js "App") 2)))|].
  apply (proj2 (proj2 (getSuggestions_bounded_prefixed seedTrie (js "App") 2))).
  vm_compute; left; reflexivity.
Defined.

(** C3. For every word [w] inserted into the trie and every [limit >= 1],
    [getSuggestions] with the prefix [w] itself returns a sequence that
    contains [w]. *)
Theorem getSuggestions_contains_inserted
        (t : Trie) (ws : list str) (w : str) (limit : Z) :
  In w ws -> (1 <= limit)%Z ->
  In w (getSuggestions (insertAll t ws) w limit).
Proof.
  intros Hin Hlimit.
  pose proof (contains_inserted ws t w Hin) as Hc.
  unfold contains in Hc; unfold getSuggestions.
  destruct (walk (root (insertAll t ws)) (toLowerCase w)) as [node|];
    [|discriminate].
  destruct node as [kids fin]; simpl in Hc; subst fin.
  rewrite dfs_eq; simpl length.
  destruct (Z.of_nat 0 >=? limit)%Z eqn:E.
  { rewrite Z.geb_leb in E; apply Z.leb_le in E; simpl in E; lia. }
  simpl app; rewrite app_nil_r.
  assert (Hkeep : forall l acc,
             In w acc ->
             In w (fold_left
                     (fun acc e => dfs limit w (snd e) ([] ++ [fst e]) acc)
                     l acc)).
  { induction l as [|e l IHl]; intros acc Hacc; simpl; [exact Hacc|].
    apply IHl.
    destruct (dfs_spec limit w (snd e) [fst e] acc) as (more & -> & _).
    apply in_or_app; left; exact Hacc. }
  apply Hkeep; left; reflexivity.
Qed.

Lemma getSuggestions_contains_inserted_witness :
  In (js "band") seedWords /\ (1 <= 3)%Z /\
  In (js "band") (getSuggestions (insertAll newTrie seedWords) (js "band") 3).
Proof.
  assert (Hin : In (js "band") seedWords).
  { vm_compute; do 4 right; left; reflexivity. }
  assert (Hl : (1 <= 3)%Z) by lia.
  split; [exact Hin|]. split; [exact Hl|].
  exact (getSuggestions_contains_inserted newTrie seedWords (js "band") 3
                                          Hin Hl).
Defined.

Lemma insertFrom_idempotent w : forall n,
  insertFrom (insertFrom n w) w = insertFrom n w.
Proof.
  induction w as [|ch rest IH]; intros n; simpl.
  - reflexivity.
  - rewrite ObjFacts.get_set_same, ObjFacts.set_set, IH; reflexivity.
Qed.

(** C4. [insert] is idempotent: for every word and every state of the
    trie, inserting the word a second time leaves the state the first
    insertion produced, the same nodes, children and end-of-word flags;
    [insert] is a total function, so no error is raised. *)
Theorem insert_idempotent (t : Trie) (w : str) :
  insert (insert t w) w = insert t w.
Proof.
  unfold insert; simpl; rewrite insertFrom_idempotent; reflexivity.
Qed.

(** C9, as the specification states it, fails: a negative limit does not
    make [getSuggestions] signal an invalid argument. *)
Lemma getSuggestions_negative_limit_no_signal :
  ~ (forall (t : Trie) (prefix : str) (limit : Z),
        (limit < 0)%Z ->
        exists e, getSuggestionsCall t prefix limit = Throw e).
Proof.
  intros H.
  destruct (H seedTrie (js "app") (-1)%Z ltac:(lia)) as [e He].
  vm_compute in He; discriminate.
Qed.

(** C9, amended. Called with a negative limit, [getSuggestions] returns
    normally, and what it returns is the empty sequence. *)
Theorem getSuggestions_negative_limit
        (t : Trie) (prefix : str) (limit : Z) :
  (limit < 0)%Z -> getSuggestionsCall t prefix limit = Normal [].
Proof.
  intros Hneg; unfold getSuggestionsCall, getSuggestions; f_equal.
  destruct (walk (root t) (toLowerCase prefix)) as [[kids fin]|];
    [|reflexivity].
  rewrite dfs_eq; simpl length.
  destruct (Z.of_nat 0 >=? limit)%Z eqn:E; [reflexivity|].
  rewrite Z.geb_leb in E; apply Z.leb_gt in E; simpl in E; lia.
Qed.

Lemma getSuggestions_negative_limit_witness :
  (-1 < 0)%Z /\ getSuggestionsCall seedTrie (js "app") (-1) = Normal [].
Proof.
  assert (H : (-1 < 0)%Z) by lia.
  split; [exact H|].
  exact (getSuggestions_negative_limit seedTrie (js "app") (-1) H).
Defined.

(** C10. In a trie built by [insert], every string [getSuggestions]
    returns is the prefix exactly as it was passed, followed by a
    lower-case suffix read below the node of the lowercased prefix; so for
    a prefix with an upper-case letter no returned string is one of the
    lower-case words [insert] stores. *)
Theorem getSuggestions_keeps_prefix_casing
        (ws : list str) (prefix : str) (limit : Z) (r : str) :
  In r (getSuggestions (insertAll newTrie ws) prefix limit) ->
  exists suffix,
    r = prefix ++ suffix /\
    toLowerCase suffix = suffix /\
    (exists node,
        path (root (insertAll newTrie ws)) (toLowerCase prefix) node /\
        spells node suffix) /\
    (toLowerCase prefix <> prefix -> forall w, r <> toLowerCase w).
Proof.
  intros Hin.
  destruct (in_getSuggestions _ _ _ _ Hin) as (node & q & Hw & -> & Hq).
  assert (Hroot : LowerKeys (root (insertAll newTrie ws)))
    by apply LowerKeys_insertAll, LowerKeys_new.
  assert (Hlow : toLowerCase q = q).
  { eapply LowerKeys_spells; [exact Hq|].
    eapply LowerKeys_walk; eassumption. }
  exists q; split; [reflexivity|]. split; [exact Hlow|]. split.
  - exists node; split; [apply walk_path; exact Hw | exact Hq].
  - intros Hup w Heq; apply Hup.
    assert (H : toLowerCase prefix ++ toLowerCase q = prefix ++ q).
    { rewrite <- toLowerCase_app, Heq, toLowerCase_idem; reflexivity. }
    apply app_inj_length in H; [tauto | apply toLowerCase_length].
Qed.

Lemma getSuggestions_keeps_prefix_casing_witness :
  In (js "BANd") (getSuggestions (insertAll newTrie seedWords) (js "BAN") 3) /\
  exists suffix,
    js "BANd" = js "BAN" ++ suffix /\
    toLowerCase suffix = suffix /\
    (exists node,
        path (root (insertAll newTrie seedWords)) (toLowerCase (js "BAN")) node
        /\ spells node suffix) /\
    (toLowerCase (js "BAN") <> js "BAN" ->
     forall w, js "BANd" <> toLowerCase w).
Proof.
  assert (Hin : In (js "BANd")
                   (getSuggestions (insertAll newTrie seedWords) (js "BAN") 3)).
  { vm_compute; right; left; reflexivity. }
  split; [exact Hin|].
  exact (getSuggestions_keeps_prefix_casing seedWords (js "BAN") 3 (js "BANd")
                                            Hin).
Defined.

(** ** The claims on the search state *)

(** C6. Whenever the search pattern is empty after trimming white space,
    the effect sets the match list to the empty sequence and the
    current-match index to the sentinel [-1], not to [0]. *)
Theorem searchEffect_blank_pattern
        (kmpSearch : str -> str -> list nat) (st : EditorState) :
  trim (pattern st) = [] ->
  matches (searchEffect kmpSearch st) = [] /\
  current (searchEffect kmpSearch st) = (-1)%Z.
Proof.
  intros H; unfold searchEffect; rewrite H; simpl; auto.
Qed.

Lemma searchEffect_blank_pattern_witness :
  trim (pattern (setPattern (js "   ") initialState)) = [] /\
  matches (searchEffect KMP.kmpSearch (setPattern (js "   ") initialState))
  = [] /\
  current (searchEffect KMP.kmpSearch (setPattern (js "   ") initialState))
  = (-1)%Z.
Proof.
  assert (H : trim (pattern (setPattern (js "   ") initialState)) = [])
    by reflexivity.
  split; [exact H|].
  exact (searchEffect_blank_pattern KMP.kmpSearch
           (setPattern (js "   ") initialState) H).
Defined.

(** C7. With [n] matches and the current index [c] in [0 <= c < n], Next
    sets the index to [(c + 1) mod n] and Prev to [(c - 1 + n) mod n];
    with no match, both leave it at the sentinel [-1]. *)
Theorem navigation_cyclic (st : EditorState) :
  let n := Z.of_nat (length (matches st)) in
  let c := current st in
  ((0 <= c < n)%Z ->
   current (clickNext st) = ((c + 1) mod n)%Z /\
   current (clickPrev st) = ((c - 1 + n) mod n)%Z) /\
  (n = 0%Z ->
   current (clickNext st) = (-1)%Z /\ current (clickPrev st) = (-1)%Z).
Proof.
  intros n c; unfold clickNext, clickPrev; simpl; fold n; fold c.
  split.
  - intros Hc.
    assert (E : (n =? 0)%Z = false) by (apply Z.eqb_neq; lia).
    rewrite E; split; apply Z.rem_mod_nonneg; lia.
  - intros ->; simpl; auto.
Qed.

Lemma navigation_cyclic_witness :
  (0 <= 2 < 3)%Z /\
  current (clickNext (mkEditorState (js "banana bandana band") (js "ban")
                                    [0; 7; 15] 2 [])) = 0%Z /\
  current (clickPrev (mkEditorState (js "banana bandana band") (js "ban")
                                    [0; 7; 15] 2 [])) = 1%Z.
Proof.
  assert (H : (0 <= 2 < 3)%Z) by lia.
  split; [exact H|].
  exact (proj1 (navigation_cyclic
                  (mkEditorState (js "banana bandana band") (js "ban")
                                 [0; 7; 15] 2 [])) H).
Defined.


(** ** The pattern search *)

Module KMPFacts.
Import KMP.

Lemma firstn_S_nth_error {A} (l : list A) : forall k x,
  nth_error l k = Some x -> firstn (S k) l = firstn k l ++ [x].
Proof.
  induction l as [|y l IH]; intros [|k] x H; simpl in *; try discriminate.
  - injection H as ->; reflexivity.
  - rewrite (IH k x H); reflexivity.
Qed.

Lemma StronglySorted_snoc (l : list nat) (a : nat) :
  StronglySorted lt l -> (forall o, In o l -> o < a) ->
  StronglySorted lt (l ++ [a]).
Proof.
  induction 1 as [|x l Hl IH Hx]; intros Hlt; simpl.
  - repeat constructor.
  - constructor.
    + apply IH; intros o Ho; apply Hlt; right; exact Ho.
    + apply Forall_app; split; [exact Hx|].
      constructor; [apply Hlt; left; reflexivity | constructor].
Qed.

Lemma matchesAt_true pattern j c :
  matchesAt pattern j c = true <-> nth_error pattern j = Some c.
Proof.
  unfold matchesAt; destruct (nth_error pattern j) as [x|].
  - rewrite char_eqb_eq; split; [intros ->; reflexivity|].
    intros H; injection H as ->; reflexivity.
  - split; discriminate.
Qed.

Section Pattern.
Variable P : str.

Local Abbreviation border := (KMP.border P).
Local Abbreviation longestProperBorder := (KMP.longestProperBorder P).
Local Abbreviation tableOk := (KMP.tableOk P).
Local Abbreviation found := (KMP.found P).

Lemma border_0 w : border w 0.
  Proof.
    unfold KMP.border; rewrite Nat.sub_0_r, skipn_all; simpl.
    repeat split; lia.
  Qed.

Lemma border_snoc w c k :
    border (w ++ [c]) (S k) <-> border w k /\ nth_error P k = Some c.
  Proof.
    unfold KMP.border; rewrite length_app; simpl length.
    replace (length w + 1 - S k) with (length w - k) by lia.
    split.
    - intros (Hm & Hw & E).
      assert (Hk : k < length P) by lia.
      destruct (nth_error P k) as [x|] eqn:Ex;
        [|apply nth_error_None in Ex; lia].
      rewrite (firstn_S_nth_error P k x Ex) in E.
      rewrite skipn_app in E.
      replace (length w - k - length w) with 0 in E by lia.
      simpl in E; apply app_inj_tail in E; destruct E as [E ->].
      repeat split; try lia; exact E.
    - intros ((Hm & Hw & E) & Ex).
      assert (Hk : k < length P)
        by (apply nth_error_Some; rewrite Ex; discriminate).
      repeat split; try lia.
      rewrite (firstn_S_nth_error P k c Ex), skipn_app, E.
      replace (length w - k - length w) with 0 by lia; reflexivity.
  Qed.

  (** Of two borders of [w], the shorter is a border of the longer. *)
Lemma border_shorter w j k :
    border w j -> border w k -> k <= j -> border (firstn j P) k.
  Proof.
    unfold KMP.border; intros (Hjm & Hjw & Ej) (Hkm & Hkw & Ek) Hkj.
    rewrite length_firstn, Nat.min_l by lia.
    repeat split; try lia.
    rewrite Ej, skipn_skipn, Ek; f_equal; lia.
  Qed.

Lemma border_trans w j k :
    border (firstn j P) k -> border w j -> border w k.
  Proof.
    unfold KMP.border; intros (Hkm & Hkj & Ek) (Hjm & Hjw & Ej).
    rewrite length_firstn, Nat.min_l in Hkj, Ek by lia.
    repeat split; try lia.
    rewrite Ek, Ej, skipn_skipn; f_equal; lia.
  Qed.

  (** One step of the automaton: from the longest border [j] of [w] within
      the bound [B], [advance] gives the longest border of [w ++ [c]]
      within [S B]. *)
Lemma advance_spec table w c B :
    tableOk table ->
    forall fuel j,
      j <= fuel -> j <= length table -> j <= B ->
      border w j ->
      (forall k, j < k <= B -> border w k -> nth_error P k <> Some c) ->
      advance fuel P table c j <= S j /\
      border (w ++ [c]) (advance fuel P table c j) /\
      forall k, k <= S B -> border (w ++ [c]) k ->
                k <= advance fuel P table c j.
  Proof.
    intros [_ Htab]; induction fuel as [|fuel IH]; intros j Hf Ht HB Hj Hup;
      simpl; destruct (matchesAt P j c) eqn:E.
    all: try (apply matchesAt_true in E; split; [lia|]; split;
              [apply border_snoc; auto|];
              intros [|k] Hk Hb; [lia|];
              apply border_snoc in Hb; destruct Hb as [Hb Hc];
              destruct (Nat.le_gt_cases k j); [lia|];
              exfalso; apply (Hup k); [lia | exact Hb | exact Hc]).
    all: assert (Hmis : nth_error P j <> Some c)
      by (intros H; apply matchesAt_true in H; congruence).
    - assert (j = 0) by lia; subst j.
      split; [lia|]; split; [apply border_0|].
      intros [|k] Hk Hb; [lia|].
      apply border_snoc in Hb; destruct Hb as [Hb Hc].
      destruct k; [contradiction|].
      exfalso; apply (Hup (S k)); [lia | exact Hb | exact Hc].
    - destruct j as [|j1].
      + split; [lia|]; split; [apply border_0|].
        intros [|k] Hk Hb; [lia|].
        apply border_snoc in Hb; destruct Hb as [Hb Hc].
        destruct k; [contradiction|].
        exfalso; apply (Hup (S k)); [lia | exact Hb | exact Hc].
      + destruct (Htab (S j1) ltac:(lia)) as (Hlt & Hbord & Hmax).
        replace (S j1 - 1) with j1 in * by lia.
        set (j2 := nth j1 table 0) in *.
        destruct (IH j2) as (H1 & H2 & H3); try lia.
        * eapply border_trans; eassumption.
        * intros k Hk Hb.
          destruct (Nat.lt_trichotomy k (S j1)) as [Hlt'|[->|Hgt]].
          -- exfalso.
             assert (k <= j2); [|lia].
             apply Hmax; [exact Hlt'|].
             apply (border_shorter w); [exact Hj | exact Hb | lia].
          -- exact Hmis.
          -- apply Hup; [lia | exact Hb].
        * split; [lia|]; split; assumption.
  Qed.

  (** [build] keeps the table right and completes it. *)
Lemma build_spec rest : forall table j,
    tableOk table -> 1 <= length table ->
    P = firstn (length table) P ++ rest ->
    j = nth (length table - 1) table 0 ->
    tableOk (build P rest table j) /\
    length (build P rest table j) = length P.
  Proof.
    induction rest as [|c rest IH]; intros table j Hok Hlen HP Hj; simpl.
    - split; [exact Hok|].
      rewrite app_nil_r in HP.
      assert (length P = length (firstn (length table) P)) by congruence.
      rewrite length_firstn in H; destruct Hok; lia.
    - set (k := length table) in *.
      assert (Hk : k < length P).
      { assert (length P = length (firstn k P ++ c :: rest)) by congruence.
        rewrite length_app, length_firstn in H; simpl in H; lia. }
      assert (Hc : nth_error P k = Some c).
      { rewrite HP at 1.
        rewrite nth_error_app2; rewrite length_firstn, Nat.min_l by lia;
          [|lia].
        rewrite Nat.sub_diag; reflexivity. }
      destruct (proj2 Hok k ltac:(lia)) as (Hjk & Hjb & Hjmax).
      rewrite <- Hj in *.
      destruct (advance_spec table (firstn k P) c (k - 1) Hok j j)
        as (H1 & H2 & H3); try lia; try assumption.
      { intros k' Hk' Hb; exfalso.
        assert (k' <= j); [apply Hjmax; [lia | exact Hb] | lia]. }
      rewrite <- (firstn_S_nth_error P k c Hc) in H2, H3.
      set (j' := advance j P table c j) in *.
      assert (Hok' : tableOk (table ++ [j'])).
      { split; [rewrite length_app; simpl; fold k; lia|].
        intros k0 Hk0; rewrite length_app in Hk0; simpl in Hk0; fold k in Hk0.
        destruct (Nat.eq_dec k0 (S k)) as [->|Hne].
        - replace (S k - 1) with (length table + 0) by (fold k; lia).
          rewrite app_nth2_plus; simpl.
          split; [lia|]. split; [exact H2|].
          intros b' Hb' Hbb; apply H3; [lia | exact Hbb].
        - rewrite app_nth1 by (fold k; lia).
          apply (proj2 Hok); fold k; lia. }
      apply IH.
      + exact Hok'.
      + rewrite length_app; simpl; lia.
      + rewrite length_app; simpl; fold k.
        replace (k + 1) with (S k) by lia.
        rewrite (firstn_S_nth_error P k c Hc), <- app_assoc; exact HP.
      + rewrite length_app; simpl; fold k.
        replace (k + 1 - 1) with (length table + 0) by (fold k; lia).
        rewrite app_nth2_plus; reflexivity.
  Qed.

Lemma failureTable_spec :
    P <> [] ->
    tableOk (failureTable P) /\ length (failureTable P) = length P.
  Proof.
    destruct P as [|x rest] eqn:EP; [congruence|]; intros _.
    unfold failureTable; rewrite <- EP.
    apply build_spec.
    - split; [rewrite EP; simpl; lia|].
      intros k Hk; simpl in Hk; assert (k = 1) by lia; subst k; simpl.
      split; [lia|]. split; [apply border_0|].
      intros b' Hb' _; lia.
    - simpl; lia.
    - rewrite EP; reflexivity.
    - reflexivity.
  Qed.

Hypothesis P_nonempty : P <> [].

Lemma occursAt_iff T o :
    occursAt T P o <->
    o + length P <= length T /\ firstn (length P) (skipn o T) = P.
  Proof.
    assert (Hm : 0 < length P) by (destruct P; [congruence | simpl; lia]).
    unfold occursAt, substring; cbv zeta.
    destruct (Nat.le_gt_cases (o + length P) (length T)) as [Hle|Hgt].
    - replace (Nat.min o (length T)) with o by lia.
      replace (Nat.min (o + length P) (length T)) with (o + length P) by lia.
      replace (Nat.min o (o + length P)) with o by lia.
      replace (Nat.max o (o + length P)) with (o + length P) by lia.
      replace (o + length P - o) with (length P) by lia.
      tauto.
    - split; [|lia]; intros H; exfalso.
      apply (f_equal (@length char)) in H.
      rewrite length_firstn, length_skipn in H; lia.
  Qed.

  (** An occurrence whose last character is the last of [w] is a border
      of [w] with the whole pattern. *)
Lemma occursAt_border w rest o :
    o + length P = length w ->
    occursAt (w ++ rest) P o <-> border w (length P).
  Proof.
    intros Ho; rewrite occursAt_iff; unfold KMP.border.
    rewrite firstn_all, length_app, skipn_app, firstn_app, length_skipn.
    replace (o - length w) with 0 by lia.
    replace (length P - (length w - o)) with 0 by lia.
    replace (length w - length P) with o by lia.
    simpl; rewrite app_nil_r.
    rewrite firstn_all2 by (rewrite length_skipn; lia).
    split; [intros [_ H] | intros (_ & _ & H)]; repeat split; auto; lia.
  Qed.

Lemma found_snoc T i res :
    found T i res -> length P <= S i ->
    occursAt T P (S i - length P) ->
    found T (S i) (res ++ [S i - length P]).
  Proof.
    intros [Hs Hin] Hle Hocc; split.
    - apply StronglySorted_snoc; [exact Hs|].
      intros o Ho; apply Hin in Ho; lia.
    - intros o; rewrite in_app_iff, Hin; cbn [In]; split.
      + intros [[H1 H2]|[<-|[]]]; (split; [lia | assumption]).
      + intros [H1 H2].
        destruct (Nat.le_gt_cases (o + length P) i); [left; auto|].
        right; left; lia.
  Qed.

Lemma found_skip T w rest c i res j :
    T = (w ++ [c]) ++ rest -> i = length w ->
    found T i res ->
    border (w ++ [c]) j ->
    (forall k, k <= length P -> border (w ++ [c]) k -> k <= j) ->
    j <> length P ->
    found T (S i) res.
  Proof.
    intros -> -> [Hs Hin] Hb Hmax Hne; split; [exact Hs|].
    intros o; rewrite Hin; split; [intros [H1 H2]; split; auto; lia|].
    intros [H1 H2]; split; [|exact H2].
    destruct (Nat.le_gt_cases (o + length P) (length w)) as [|Hgt]; [auto|].
    exfalso; apply Hne.
    apply occursAt_border in H2; [|rewrite length_app; simpl; lia].
    pose proof (Hmax _ (Nat.le_refl _) H2).
    destruct Hb; lia.
  Qed.

Variable table : list nat.
Hypothesis table_ok : tableOk table.
Hypothesis table_full : length table = length P.

Lemma scan_spec T text : forall w i j res,
    T = w ++ text -> i = length w ->
    j < length P -> border w j ->
    (forall k, k < length P -> border w k -> k <= j) ->
    found T i res ->
    found T (length T) (scan P table text i j res).
  Proof.
    assert (Hm : 0 < length P) by (destruct P; [congruence | simpl; lia]).
    induction text as [|c text IH]; intros w i j res HT Hi Hj Hb Hmax Hf;
      simpl.
    - rewrite app_nil_r in HT; subst; exact Hf.
    - destruct (advance_spec table w c (length P - 1) table_ok j j)
        as (H1 & H2 & H3); try lia; try assumption.
      { intros k Hk Hbk; exfalso.
        assert (k <= j); [apply Hmax; [lia | exact Hbk] | lia]. }
      replace (S (length P - 1)) with (length P) in H3 by lia.
      set (j' := advance j P table c j) in *.
      assert (HT' : T = (w ++ [c]) ++ text)
        by (rewrite <- app_assoc; exact HT).
      assert (Hi' : S i = length (w ++ [c]))
        by (rewrite length_app; simpl; lia).
      destruct (j' =? length P) eqn:E.
      + apply Nat.eqb_eq in E; rewrite E in *.
        destruct (proj2 table_ok (length P) ltac:(lia))
          as (Hlt & Hbord & Hlmax).
        rewrite firstn_all in Hbord, Hlmax.
        apply (IH (w ++ [c])); try assumption.
        * apply (border_trans _ (length P)); [|exact H2].
          rewrite firstn_all; exact Hbord.
        * intros k Hk Hbk; apply Hlmax; [exact Hk|].
          pose proof (border_shorter (w ++ [c]) (length P) k H2 Hbk
                                     ltac:(lia)) as Hs.
          rewrite firstn_all in Hs; exact Hs.
        * assert (Hle : length P <= S i) by (destruct H2; lia).
          apply found_snoc; [exact Hf | exact Hle |].
          rewrite HT'; apply occursAt_border; [lia | exact H2].
      + apply Nat.eqb_neq in E.
        apply (IH (w ++ [c])); try assumption.
        * destruct H2; lia.
        * intros k Hk Hbk; apply H3; [lia | exact Hbk].
        * eapply (found_skip T w text c); eauto.
  Qed.
End Pattern.

Lemma kmpSearch_found (t p : str) :
  p <> [] -> found p t (length t) (kmpSearch t p).
Proof.
  intros Hp; destruct (failureTable_spec p Hp) as [Hok Hfull].
  assert (Hm : 0 < length p) by (destruct p; [congruence | simpl; lia]).
  unfold kmpSearch; destruct p as [|x p'] eqn:Ep; [congruence|].
  rewrite <- Ep in *.
  apply (scan_spec p Hp _ Hok Hfull t t []); try reflexivity; try lia.
  - apply border_0.
  - intros k _ [_ [Hk _]]; simpl in Hk; lia.
  - split; [constructor|].
    intros o; simpl; split; [intros [] | lia].
Qed.
End KMPFacts.

(** The scenario of section 8. *)
Example kmpSearch_banana :
  KMP.kmpSearch (js "banana bandana band") (js "ban") = [0; 7; 15].
Proof. vm_compute. reflexivity. Qed.

(** Overlapping occurrences are all found. *)
Example kmpSearch_overlap :
  KMP.kmpSearch (js "aaaaa") (js "aa") = [0; 1; 2; 3].
Proof. vm_compute. reflexivity. Qed.

(** C1, as the specification states it, fails on the empty pattern: every
    offset of the text is an occurrence of [""], and [findAll] returns the
    empty list there. *)
Lemma kmpSearch_empty_pattern_omits :
  ~ (forall (t p : str),
        (forall o, In o (KMP.kmpSearch t p) -> KMP.occursAt t p o) /\
        (forall o, KMP.occursAt t p o -> In o (KMP.kmpSearch t p)) /\
        StronglySorted lt (KMP.kmpSearch t p)).
Proof.
  intros H.
  destruct (H (js "abc") []) as (_ & Hall & _).
  apply (Hall 0); reflexivity.
Qed.

(** C1, amended. For every text [t] and pattern [p], every offset that
    [findAll(t, p)] returns satisfies
    [t.substring(offset, offset + len(p)) == p] and the offsets are
    strictly increasing; for every non-empty [p] no occurrence of [p] in
    [t] is omitted, and for the empty pattern the result is empty. *)
Theorem kmpSearch_sound_complete_increasing (t p : str) :
  (forall o, In o (KMP.kmpSearch t p) -> KMP.occursAt t p o) /\
  (p <> [] -> forall o, KMP.occursAt t p o -> In o (KMP.kmpSearch t p)) /\
  StronglySorted lt (KMP.kmpSearch t p) /\
  (p = [] -> KMP.kmpSearch t p = []).
Proof.
  destruct p as [|x p'] eqn:Ep.
  - simpl; repeat split.
    + intros o [].
    + intros Hne; congruence.
    + constructor.
  - rewrite <- Ep.
    assert (Hp : p <> []) by (rewrite Ep; discriminate).
    destruct (KMPFacts.kmpSearch_found t p Hp) as [Hs Hin].
    repeat split.
    + intros o Ho; apply Hin in Ho; tauto.
    + intros _ o Ho; apply Hin; split; [|exact Ho].
      apply (KMPFacts.occursAt_iff p Hp) in Ho; tauto.
    + exact Hs.
    + intros ->; discriminate.
Qed.

Lemma kmpSearch_sound_complete_increasing_witness :
  js "ban" <> [] /\
  KMP.occursAt (js "banana bandana band") (js "ban") 7 /\
  In 7 (KMP.kmpSearch (js "banana bandana band") (js "ban")).
Proof.
  assert (Hne : js "ban" <> []) by (vm_compute; discriminate).
  assert (Hocc : KMP.occursAt (js "banana bandana band") (js "ban") 7)
    by reflexivity.
  split; [exact Hne|]. split; [exact Hocc|].
  exact (proj1 (proj2 (kmpSearch_sound_complete_increasing
                         (js "banana bandana band") (js "ban")))
               Hne 7 Hocc).
Defined.

(** ** Tokens without metacharacters *)

Module RegExpFacts.
Import RegExp.

Lemma parse_plainChar c rest cur stack :
  plainChar c = true ->
  parse (c :: rest) cur stack = parse rest (addTerm cur (Chr c) Atom) stack.
Proof.
  unfold plainChar; rewrite negb_true_iff, !orb_false_iff.
  intros (((((((((((H1 & H2) & H3) & H4) & H5) & H6) & H7) & H8) & H9)
             & H10) & H11) & H12).
  cbn [parse]; unfold quantifierOf.
  rewrite H1, H2, H3, H4, H5, H6, H7, H8, H9, H10, H11, H12.
  reflexivity.
Qed.

Lemma parse_plain lit : forall rest cur stack,
  forallb plainChar lit = true ->
  parse (lit ++ rest) cur stack
  = parse rest
          (mkFrame (alts cur)
                   (rev (map (fun c => (Chr c, Atom)) lit) ++ terms cur))
          stack.
Proof.
  induction lit as [|c lit IH]; intros rest cur stack Hlit.
  - destruct cur; reflexivity.
  - cbn [forallb] in Hlit; apply andb_true_iff in Hlit.
    destruct Hlit as [Hc Hlit].
    cbn [app]; rewrite (parse_plainChar c _ _ _ Hc), IH by exact Hlit.
    unfold addTerm; cbn [map rev alts terms].
    rewrite <- app_assoc; reflexivity.
Qed.

Lemma seqOf_rev lit acc :
  fold_left (fun acc t => Seq (fst t) acc)
            (rev (map (fun c => (Chr c, Atom)) lit)) acc
  = fold_right (fun c acc => Seq (Chr c) acc) acc lit.
Proof.
  rewrite <- fold_left_rev_right, rev_involutive.
  induction lit as [|c lit IH]; simpl; [reflexivity|].
  rewrite IH; reflexivity.
Qed.

(** The constructor on a plain token followed by [$]. *)
Lemma new_plain lit :
  forallb plainChar lit = true ->
  new (lit ++ js "$") = Some (Normal (literal lit)).
Proof.
  intros Hlit; unfold new; rewrite (parse_plain lit _ _ _ Hlit).
  simpl; unfold close, seqOf, addTerm; simpl.
  rewrite app_nil_r.
  change (Seq AssertEnd Empty)
    with (fold_left (fun acc t => Seq (fst t) acc)
                    [(AssertEnd, Assertion)] Empty).
  rewrite <- fold_left_app.
  rewrite fold_left_app; simpl.
  apply f_equal, f_equal, seqOf_rev.
Qed.

(** The expression of a plain token matches that token at the end of the
    input, and nothing else. *)
Lemma matchRe_literal n lit : forall s,
  matchRe n (literal lit) s (fun s' => Some s')
  = if str_eqb s lit then Some [] else None.
Proof.
  induction lit as [|c lit IH]; intros [|x s]; simpl; try reflexivity.
  unfold literal in IH; simpl in IH.
  destruct (char_eqb x c); simpl; [apply IH | reflexivity].
Qed.

Lemma searchFrom_eq n r s i :
  searchFrom n r s i
  = match matchRe n r s (fun s' => Some s') with
    | Some rest => Some (i, rest)
    | None =>
        match s with
        | [] => None
        | _ :: s' => searchFrom n r s' (S i)
        end
    end.
Proof. destruct s; reflexivity. Qed.

Lemma searchFrom_literal n lit pre : forall i,
  searchFrom n (literal lit) (pre ++ lit) i = Some (i + length pre, []).
Proof.
  induction pre as [|x pre IH]; intros i;
    rewrite searchFrom_eq, matchRe_literal.
  - simpl; rewrite str_eqb_refl, Nat.add_0_r; reflexivity.
  - destruct (str_eqb ((x :: pre) ++ lit) lit) eqn:E.
    + apply str_eqb_eq in E; apply (f_equal (@length char)) in E.
      rewrite length_app in E; simpl in E; lia.
    + simpl; rewrite IH; f_equal; f_equal; lia.
Qed.

(** Replacing the plain token at the end of the text. *)
Lemma replace_literal pre lit replacement :
  existsb (isChar "$") replacement = false ->
  replace (pre ++ lit) (literal lit) replacement = Some (pre ++ replacement).
Proof.
  intros Hr; unfold replace, exec; rewrite Hr, searchFrom_literal; simpl.
  rewrite firstn_app, firstn_all, Nat.sub_diag, !app_nil_r; reflexivity.
Qed.
End RegExpFacts.

Lemma splitAux_not_nil s : forall cur inGap, splitAux s cur inGap <> [].
Proof.
  induction s as [|c s IH]; intros cur inGap; simpl; [discriminate|].
  destruct (isWhiteSpace c); [destruct inGap|]; try apply IH; discriminate.
Qed.

(** The last piece of [split] ends the text. *)
Lemma splitAux_last s : forall cur inGap,
  exists pre, cur ++ s = pre ++ List.last (splitAux s cur inGap) [].
Proof.
  induction s as [|c s IH]; intros cur inGap; simpl.
  - exists []; rewrite app_nil_r; reflexivity.
  - destruct (isWhiteSpace c).
    + destruct (IH [] true) as [pre Hpre]; simpl in Hpre.
      exists (cur ++ c :: pre).
      rewrite <- app_assoc; simpl.
      destruct inGap.
      * do 2 f_equal; exact Hpre.
      * pose proof (splitAux_not_nil s [] true) as Hne.
        destruct (splitAux s [] true) as [|y l] eqn:E; [congruence|].
        do 2 f_equal; exact Hpre.
    + destruct (IH (cur ++ [c]) false) as [pre Hpre].
      exists pre; rewrite <- Hpre, <- app_assoc; reflexivity.
Qed.

(** Outside the defect the handler does what C5 says: for a last token of
    more than two plain characters, and a correction without [$], the
    text becomes what precedes the token followed by the correction, and
    the suggestions are those of the trie for the token as typed and the
    limit 3, whether or not the correction differs. *)
Lemma handleTextChange_plain_token
      (getCorrection : str -> str) (trie : Trie) (st : EditorState)
      (value : str) :
  let last := List.last (splitWhitespace value) [] in
  2 < length last ->
  forallb RegExp.plainChar last = true ->
  existsb (RegExp.isChar "$") (getCorrection last) = false ->
  exists pre,
    value = pre ++ last /\
    handleTextChange getCorrection trie st value
    = Some (Normal (setText (pre ++ getCorrection last)
                            (setSuggestions (getSuggestions trie last 3) st))).
Proof.
  intros last Hlen Hplain Hdollar.
  destruct (splitAux_last value [] false) as [pre Hpre].
  simpl in Hpre; fold (splitWhitespace value) in Hpre; fold last in Hpre.
  exists pre; split; [exact Hpre|].
  unfold handleTextChange; fold last.
  apply Nat.ltb_lt in Hlen; rewrite Hlen.
  destruct (str_eqb (getCorrection last) last) eqn:E; simpl.
  - apply str_eqb_eq in E; rewrite E, <- Hpre; reflexivity.
  - unfold replaceLast.
    rewrite (RegExpFacts.new_plain last Hplain).
    rewrite Hpre at 1.
    rewrite (RegExpFacts.replace_literal pre last _ Hdollar); reflexivity.
Qed.

(** ** The claims on the text-change handler *)

(** Whatever the corrector is: when it changes a last token of more than
    two characters and the token followed by [$] is not a well-formed
    pattern, the handler throws, and neither the text nor the suggestions
    are set. *)
Lemma handleTextChange_throws_on_bad_pattern
      (getCorrection : str -> str) (trie : Trie) (st : EditorState)
      (value : str) :
  let last := List.last (splitWhitespace value) [] in
  2 < length last ->
  getCorrection last <> last ->
  RegExp.new (last ++ js "$") = Some (Throw SyntaxError) ->
  handleTextChange getCorrection trie st value = Some (Throw SyntaxError).
Proof.
  intros last Hlen Hne Hre; unfold handleTextChange; fold last.
  apply Nat.ltb_lt in Hlen; rewrite Hlen.
  destruct (str_eqb (getCorrection last) last) eqn:E.
  - apply str_eqb_eq in E; contradiction.
  - simpl; unfold replaceLast; rewrite Hre; reflexivity.
Qed.

(** C8 fails on the code. The text ["ban("] ends with a token of four
    characters that the corrector turns into ["band"]; the handler then
    builds [new RegExp("ban($")], which throws a [SyntaxError], and the
    handler ends with that exception. *)
Theorem handleTextChange_throws :
  SpellChecker.getCorrection (js "ban(") = js "band" /\
  RegExp.new (js "ban($") = Some (Throw SyntaxError) /\
  handleTextChange SpellChecker.getCorrection seedTrie initialState
                   (js "ban(")
  = Some (Throw SyntaxError).
Proof. vm_compute. repeat split; reflexivity. Qed.

(** C5 fails on the code. The token is pasted into the pattern as it is.
    The text ["ca+"] has the last token ["ca+"], which the corrector turns
    into ["cat"]; the pattern [ca+$] does not match the text and the text
    stays ["ca+"].  In ["banana ba|d"] the last token ["ba|d"] is
    corrected to ["band"]; the pattern [ba|d$] matches the first two
    characters of the text, and these, not the last token, are
    replaced. *)
Theorem handleTextChange_unescaped_token :
  SpellChecker.getCorrection (js "ca+") = js "cat" /\
  handleTextChange SpellChecker.getCorrection seedTrie initialState
                   (js "ca+")
  = Some (Normal (setText (js "ca+") (setSuggestions [] initialState))) /\
  SpellChecker.getCorrection (js "ba|d") = js "band" /\
  handleTextChange SpellChecker.getCorrection seedTrie initialState
                   (js "banana ba|d")
  = Some (Normal (setText (js "bandnana ba|d")
                          (setSuggestions [] initialState))).
Proof. vm_compute. repeat split; reflexivity. Qed.

(** Tokens of plain letters: the token is replaced at the end of the text,
    and the suggestions are those of the token as it was typed. *)
Example handleTextChange_aple :
  handleTextChange SpellChecker.getCorrection seedTrie initialState
                   (js "I like aple")
  = Some (Normal (setText (js "I like apple")
                          (setSuggestions [] initialState))) /\
  handleTextChange SpellChecker.getCorrection seedTrie initialState
                   (js "a ban")
  = Some (Normal (setText (js "a band")
                          (setSuggestions
                             (map js ["banana"; "band"; "banner"]%string)
                             initialState))).
Proof. vm_compute. split; reflexivity. Qed.

(* ================================================================== *)
(** * Further properties of the trie *)

Lemma allWords_eq kids fin :
  allWords (mkTrieNode kids fin)
  = (if fin then [[]] else [])
    ++ flat_map (fun e => map (cons (fst e)) (allWords (snd e))) kids.
Proof.
  simpl; f_equal; unfold Obj.entries.
  induction kids as [|[k c] kids IH]; simpl; [reflexivity|].
  rewrite IH; reflexivity.
Qed.

Lemma room_0 limit results :
  (Z.of_nat (length results) >=? limit)%Z = true <-> room limit results = 0.
Proof. unfold room; rewrite Z.geb_leb, Z.leb_le; lia. Qed.

Lemma room_app limit results more :
  room limit (results ++ more) = room limit results - length more.
Proof. unfold room; rewrite length_app; lia. Qed.

(** [dfs] pushes the words below the node in their order, as many as there
    is room for. *)
Lemma dfs_enum limit prefix curr :
  forall p results,
    dfs limit prefix curr p results
    = results ++ map (fun q => prefix ++ p ++ q)
                     (firstn (room limit results) (allWords curr)).
Proof.
  induction curr as [kids fin IH] using TrieNode_ind; intros p results.
  rewrite dfs_eq, allWords_eq.
  destruct (Z.of_nat (length results) >=? limit)%Z eqn:E.
  { apply room_0 in E; rewrite E; simpl; rewrite app_nil_r; reflexivity. }
  assert (Hroom : room limit results <> 0)
    by (intros H; apply room_0 in H; congruence).
  unfold Obj.entries.
  assert (Hfold : forall l, Forall (fun e => forall p results,
                    dfs limit prefix (snd e) p results
                    = results ++ map (fun q => prefix ++ p ++ q)
                        (firstn (room limit results) (allWords (snd e)))) l ->
            forall acc,
              fold_left
                (fun acc e => dfs limit prefix (snd e) (p ++ [fst e]) acc)
                l acc
              = acc ++ map (fun q => prefix ++ p ++ q)
                  (firstn (room limit acc)
                     (flat_map (fun e => map (cons (fst e))
                                             (allWords (snd e))) l))).
  { induction 1 as [|[k c] l Hc _ IHl]; intros acc; simpl.
    - rewrite firstn_nil; simpl; rewrite app_nil_r; reflexivity.
    - cbn [fst snd] in Hc; rewrite IHl, Hc.
      rewrite room_app, length_map, length_firstn, <- app_assoc.
      f_equal.
      rewrite firstn_app, map_app, length_map.
      f_equal.
      + rewrite firstn_map, map_map.
        apply map_ext; intros q; rewrite <- app_assoc; reflexivity.
      + replace (room limit acc
                 - Nat.min (room limit acc) (length (allWords c)))
          with (room limit acc - length (allWords c)) by lia.
        reflexivity. }
  rewrite (Hfold kids IH).
  destruct fin; [|reflexivity].
  rewrite room_app; cbn [length app].
  destruct (room limit results) as [|r]; [congruence|].
  replace (S r - 1) with r by lia.
  cbn [firstn map]; rewrite <- app_assoc, app_nil_r; reflexivity.
Qed.

Lemma getSuggestions_firstn (t : Trie) (prefix : str) (limit : Z) :
  getSuggestions t prefix limit
  = match walk (root t) (toLowerCase prefix) with
    | None => []
    | Some node =>
        map (fun q => prefix ++ q) (firstn (Z.to_nat limit) (allWords node))
    end.
Proof.
  unfold getSuggestions.
  destruct (walk (root t) (toLowerCase prefix)) as [node|]; [|reflexivity].
  rewrite dfs_enum; unfold room; simpl.
  rewrite Z.sub_0_r; reflexivity.
Qed.

Lemma skipn_app_exact {A} (a b : list A) : skipn (length a) (a ++ b) = b.
Proof. induction a as [|x a IH]; simpl; [reflexivity | exact IH]. Qed.

Lemma getSuggestions_same_lower (t : Trie) (p1 p2 : str) (limit : Z) :
  toLowerCase p1 = toLowerCase p2 ->
  map (skipn (length p1)) (getSuggestions t p1 limit)
  = map (skipn (length p2)) (getSuggestions t p2 limit).
Proof.
  intros H; rewrite !getSuggestions_firstn, H.
  destruct (walk (root t) (toLowerCase p2)) as [node|]; [|reflexivity].
  rewrite !map_map.
  transitivity (map (fun q : str => q) (firstn (Z.to_nat limit) (allWords node))).
  - apply map_ext; intros q; apply skipn_app_exact.
  - apply map_ext; intros q; symmetry; apply skipn_app_exact.
Qed.

(** ** Stored words *)

Lemma contains_new w : contains newTrieNode w = false.
Proof. destruct w; reflexivity. Qed.

(** [insertFrom] adds the word it is given and no other, and keeps the
    words that were there. *)
Lemma contains_insertFrom_iff w : forall n w',
  contains (insertFrom n w) w' = str_eqb w w' || contains n w'.
Proof.
  induction w as [|ch rest IH]; intros n [|ch' rest'].
  - reflexivity.
  - reflexivity.
  - reflexivity.
  - unfold contains; cbn [insertFrom walk children str_eqb].
    destruct (char_eqb ch ch') eqn:E.
    + apply char_eqb_eq in E; subst ch'.
      rewrite ObjFacts.get_set_same; cbn [andb].
      fold (contains (insertFrom
                        match Obj.get (children n) ch with
                        | Some c => c
                        | None => newTrieNode
                        end rest) rest').
      rewrite IH.
      destruct (Obj.get (children n) ch) as [c|]; [reflexivity|].
      rewrite contains_new; reflexivity.
    + apply char_eqb_neq in E.
      rewrite ObjFacts.get_set_other by exact E; reflexivity.
Qed.

Lemma contains_insert (t : Trie) (w w' : str) :
  contains (root (insert t w)) w' = true
  <-> w' = toLowerCase w \/ contains (root t) w' = true.
Proof.
  unfold insert; cbn [root].
  rewrite contains_insertFrom_iff, orb_true_iff, str_eqb_eq.
  split; (intros [H|H]; [left; symmetry; exact H | right; exact H]).
Qed.

Lemma contains_insertAll_iff (ws : list str) (w' : str) :
  contains (root (insertAll newTrie ws)) w' = true
  <-> In w' (map toLowerCase ws).
Proof.
  assert (H : forall t,
             contains (root (insertAll t ws)) w' = true
             <-> In w' (map toLowerCase ws) \/ contains (root t) w' = true).
  { unfold insertAll; induction ws as [|w ws IH]; intros t; simpl.
    - tauto.
    - rewrite IH, contains_insert.
      split; [intros [H|[H|H]] | intros [[H|H]|H]]; auto. }
  rewrite H; cbn [root newTrie]; rewrite contains_new.
  split; [intros [?|?]; [assumption | discriminate] | auto].
Qed.

(** ** The enumeration and the stored words *)

Lemma in_allWords n : forall q, In q (allWords n) <-> spells n q.
Proof.
  induction n as [kids fin IH] using TrieNode_ind; intros q.
  rewrite allWords_eq, in_app_iff, in_flat_map; split.
  - intros [H|[[k c] [Hin Hq]]].
    + destruct fin; [|destruct H].
      destruct H as [<-|[]]; constructor.
    + cbn [fst snd] in Hq; apply in_map_iff in Hq.
      destruct Hq as (q' & <- & Hq').
      econstructor; [exact Hin|].
      apply (proj1 (Forall_forall _ _) IH (k, c) Hin); exact Hq'.
  - intros H; inversion H as [kids'|kids' fin' k c q' Hin Hq]; subst.
    + left; left; reflexivity.
    + right; exists (k, c); split; [exact Hin|].
      cbn [fst snd]; apply in_map.
      apply (proj1 (Forall_forall _ _) IH (k, c) Hin); exact Hq.
Qed.

Lemma contains_spells q : forall n, contains n q = true -> spells n q.
Proof.
  unfold contains; induction q as [|k q IH]; intros [kids fin]; simpl.
  - intros ->; constructor.
  - destruct (Obj.get kids k) as [c|] eqn:E; [|discriminate].
    intros H; econstructor; [apply ObjFacts.get_In; exact E | apply IH, H].
Qed.

Lemma get_unique (kids : Obj.t TrieNode) k c :
  NoDup (map fst kids) -> In (k, c) kids -> Obj.get kids k = Some c.
Proof.
  induction kids as [|[k0 c0] kids IH]; intros Hnd Hin; [destruct Hin|].
  inversion Hnd as [|? ? Hnot Hnd']; subst; simpl.
  destruct Hin as [Heq|Hin].
  - injection Heq as -> ->; rewrite char_eqb_refl; reflexivity.
  - destruct (char_eqb k0 k) eqn:E.
    + apply char_eqb_eq in E; subst k0.
      exfalso; apply Hnot; apply (in_map fst) in Hin; exact Hin.
    + apply IH; assumption.
Qed.

Lemma spells_contains n q :
  spells n q -> UniqueKeys n -> contains n q = true.
Proof.
  unfold contains; induction 1 as [kids|kids fin k c q Hin Hq IH];
    intros Hu; simpl.
  - reflexivity.
  - inversion Hu as [? ? Hnd Hc]; subst.
    rewrite (get_unique kids k c Hnd Hin).
    apply IH; exact (proj1 (Forall_forall _ _) Hc _ Hin).
Qed.

Lemma walk_app a : forall n b,
  walk n (a ++ b)
  = match walk n a with Some n' => walk n' b | None => None end.
Proof.
  induction a as [|ch a IH]; intros n b; simpl; [reflexivity|].
  destruct (Obj.get (children n) ch); [apply IH | reflexivity].
Qed.

(** ** Keys stay unique *)

Lemma keys_replace {V} (o : Obj.t V) k v :
  map fst (Obj.replace o k v) = map fst o.
Proof.
  induction o as [|[k0 v0] o IH]; simpl; [reflexivity|].
  destruct (char_eqb k0 k) eqn:E; simpl.
  - apply char_eqb_eq in E; subst; reflexivity.
  - rewrite IH; reflexivity.
Qed.

Lemma keys_create {V} (o : Obj.t V) k v x :
  In x (map fst (Obj.create o k v)) <-> x = k \/ In x (map fst o).
Proof.
  induction o as [|[k0 v0] o IH]; simpl.
  - split; [intros [<-|[]]; auto | intros [->|[]]; auto].
  - destruct (Obj.before k k0); simpl; [|rewrite IH];
      intuition (subst; auto).
Qed.

Lemma has_false_keys {V} (o : Obj.t V) k :
  Obj.has o k = false -> ~ In k (map fst o).
Proof.
  unfold Obj.has; induction o as [|[k0 v0] o IH]; simpl; [tauto|].
  destruct (char_eqb k0 k) eqn:E; [discriminate|].
  apply char_eqb_neq in E; intros H [H1|H1]; [contradiction|].
  exact (IH H H1).
Qed.

Lemma NoDup_keys_create {V} (o : Obj.t V) k v :
  ~ In k (map fst o) -> NoDup (map fst o) ->
  NoDup (map fst (Obj.create o k v)).
Proof.
  induction o as [|[k0 v0] o IH]; simpl; intros Hk Hnd.
  - constructor; [tauto | constructor].
  - destruct (Obj.before k k0); simpl.
    + constructor; [simpl; tauto | exact Hnd].
    + inversion Hnd as [|? ? Hnot Hnd']; subst.
      constructor; [|apply IH; tauto].
      rewrite keys_create; intros [->|H]; tauto.
Qed.

Lemma NoDup_keys_set {V} (o : Obj.t V) k v :
  NoDup (map fst o) -> NoDup (map fst (Obj.set o k v)).
Proof.
  intros Hnd; unfold Obj.set; destruct (Obj.has o k) eqn:E.
  - rewrite keys_replace; exact Hnd.
  - apply NoDup_keys_create; [apply has_false_keys; exact E | exact Hnd].
Qed.

Lemma UniqueKeys_new : UniqueKeys newTrieNode.
Proof. constructor; constructor. Qed.

Lemma UniqueKeys_insertFrom w : forall n,
  UniqueKeys n -> UniqueKeys (insertFrom n w).
Proof.
  induction w as [|ch rest IH]; intros n Hn; simpl.
  - destruct Hn as [kids fin Hk Hc]; constructor; assumption.
  - assert (Hchild : UniqueKeys
              match Obj.get (children n) ch with
              | Some c => c
              | None => newTrieNode
              end).
    { destruct (Obj.get (children n) ch) as [c|] eqn:E;
        [|apply UniqueKeys_new].
      destruct Hn as [kids fin _ Hc]; simpl in E.
      apply ObjFacts.get_In in E.
      exact (proj1 (Forall_forall _ _) Hc _ E). }
    destruct Hn as [kids fin Hk Hc]; simpl in *.
    constructor;
      [apply NoDup_keys_set; exact Hk
      | apply ObjFacts.Forall_set; [exact Hc | apply IH; exact Hchild]].
Qed.

Lemma UniqueKeys_insertAll ws : forall t,
  UniqueKeys (root t) -> UniqueKeys (root (insertAll t ws)).
Proof.
  unfold insertAll; induction ws as [|w ws IH]; intros t Ht; simpl.
  - exact Ht.
  - apply IH; simpl; apply UniqueKeys_insertFrom; exact Ht.
Qed.

Lemma UniqueKeys_walk s : forall n n',
  UniqueKeys n -> walk n s = Some n' -> UniqueKeys n'.
Proof.
  induction s as [|ch rest IH]; intros n n' Hn; simpl.
  - intros H; inversion H; subst; exact Hn.
  - destruct (Obj.get (children n) ch) as [c|] eqn:E; [|discriminate].
    apply IH.
    destruct Hn as [kids fin _ Hc]; simpl in E.
    apply ObjFacts.get_In in E.
    exact (proj1 (Forall_forall _ _) Hc _ E).
Qed.

(** ** No word twice *)

Lemma NoDup_map_injective {A B} (f : A -> B) (l : list A) :
  (forall x y, f x = f y -> x = y) -> NoDup l -> NoDup (map f l).
Proof.
  intros Hinj; induction 1 as [|x l Hx Hl IH]; simpl; constructor.
  - intros H; apply in_map_iff in H; destruct H as (y & Hy & Hin).
    apply Hinj in Hy; subst y; contradiction.
  - exact IH.
Qed.

Lemma NoDup_firstn_of {A} (l : list A) n : NoDup l -> NoDup (firstn n l).
Proof.
  intros H; rewrite <- (firstn_skipn n l) in H.
  exact (NoDup_app_remove_r _ _ H).
Qed.

Lemma NoDup_allWords n : UniqueKeys n -> NoDup (allWords n).
Proof.
  induction n as [kids fin IH] using TrieNode_ind; intros Hu.
  inversion Hu as [? ? Hnd Hc]; subst.
  rewrite allWords_eq; apply NoDup_app.
  - destruct fin; repeat constructor; intros [].
  - clear Hu; induction kids as [|[k c] kids IHk]; simpl; [constructor|].
    inversion IH as [|? ? IHc IHrest]; subst.
    inversion Hnd as [|? ? Hnot Hnd']; subst.
    inversion Hc as [|? ? Hcc Hcrest]; subst.
    apply NoDup_app.
    + apply NoDup_map_injective; [intros x y H; injection H; auto|].
      apply IHc; exact Hcc.
    + apply IHk; assumption.
    + intros q Hq Hq'.
      apply in_map_iff in Hq; destruct Hq as (q0 & <- & _).
      apply in_flat_map in Hq'; destruct Hq' as ([k' c'] & Hin & Hq').
      cbn [fst snd] in Hq'; apply in_map_iff in Hq'.
      destruct Hq' as (q1 & Heq & _); injection Heq as -> _.
      apply Hnot; apply (in_map fst) in Hin; exact Hin.
  - intros q Hq Hq'.
    destruct fin; [|destruct Hq]; destruct Hq as [<-|[]].
    apply in_flat_map in Hq'; destruct Hq' as (e & _ & Hq').
    apply in_map_iff in Hq'; destruct Hq' as (q1 & Heq & _); discriminate.
Qed.

Lemma getSuggestions_NoDup_built (ws : list str) (prefix : str) (limit : Z) :
  NoDup (getSuggestions (insertAll newTrie ws) prefix limit).
Proof.
  rewrite getSuggestions_firstn.
  destruct (walk (root (insertAll newTrie ws)) (toLowerCase prefix))
    as [node|] eqn:E; [|constructor].
  apply NoDup_map_injective; [intros x y H; exact (app_inv_head _ _ _ H)|].
  apply NoDup_firstn_of, NoDup_allWords.
  eapply UniqueKeys_walk; [|exact E].
  apply UniqueKeys_insertAll, UniqueKeys_new.
Qed.

(** ** Suggestions and inserted words *)

Lemma getSuggestions_sound_built
      (ws : list str) (prefix : str) (limit : Z) (r : str) :
  In r (getSuggestions (insertAll newTrie ws) prefix limit) ->
  In (toLowerCase r) (map toLowerCase ws).
Proof.
  intros Hin.
  destruct (in_getSuggestions _ _ _ _ Hin) as (node & q & Hw & -> & Hq).
  assert (Hroot : LowerKeys (root (insertAll newTrie ws)))
    by apply LowerKeys_insertAll, LowerKeys_new.
  assert (Hu : UniqueKeys (root (insertAll newTrie ws)))
    by apply UniqueKeys_insertAll, UniqueKeys_new.
  rewrite toLowerCase_app.
  rewrite (LowerKeys_spells node q Hq (LowerKeys_walk _ _ _ Hroot Hw)).
  apply contains_insertAll_iff.
  unfold contains; rewrite walk_app, Hw.
  apply (spells_contains node q Hq).
  eapply UniqueKeys_walk; eassumption.
Qed.

Lemma getSuggestions_complete
      (t : Trie) (prefix : str) (limit : Z) (q : str) :
  (Z.of_nat (length (getSuggestions t prefix limit)) < limit)%Z ->
  contains (root t) (toLowerCase prefix ++ q) = true ->
  In (prefix ++ q) (getSuggestions t prefix limit).
Proof.
  rewrite getSuggestions_firstn; unfold contains; rewrite walk_app.
  destruct (walk (root t) (toLowerCase prefix)) as [node|]; [|discriminate].
  rewrite length_map, length_firstn; intros Hlen Hc.
  apply in_map.
  rewrite firstn_all2 by lia.
  apply in_allWords, contains_spells; exact Hc.
Qed.

Lemma getSuggestions_complete_built
      (ws : list str) (prefix : str) (limit : Z) (w q : str) :
  In w ws -> toLowerCase w = toLowerCase prefix ++ q ->
  (Z.of_nat (length (getSuggestions (insertAll newTrie ws) prefix limit))
   < limit)%Z ->
  In (prefix ++ q) (getSuggestions (insertAll newTrie ws) prefix limit).
Proof.
  intros Hin Hw Hlen; apply getSuggestions_complete; [exact Hlen|].
  rewrite <- Hw; apply contains_insertAll_iff, in_map; exact Hin.
Qed.

(* ================================================================== *)
(** * Further properties of the editor *)

(** ** Highlighting *)

Lemma slice_skipn (s : str) (a b : nat) :
  a <= b -> slice s a b ++ skipn b s = skipn a s.
Proof.
  intros Hab; unfold slice.
  replace (skipn b s) with (skipn (b - a) (skipn a s))
    by (rewrite skipn_skipn; f_equal; lia).
  apply firstn_skipn.
Qed.

Lemma highlight_fold escapeHtml txt plen ms : forall out last,
  fst (fold_left (highlightStep escapeHtml txt plen) ms (out, last))
  ++ escapeHtml
       (skipn (snd (fold_left (highlightStep escapeHtml txt plen) ms
                              (out, last))) txt)
  = out ++ concat (map (renderPiece escapeHtml)
                       (highlightPieces txt plen last ms)).
Proof.
  induction ms as [|idx ms IH]; intros out last; simpl.
  - unfold renderPiece; simpl; rewrite app_nil_r; reflexivity.
  - unfold highlightStep at 2 4; cbn [fst snd].
    rewrite IH; unfold renderPiece at 2 3; cbn [fst snd].
    rewrite <- !app_assoc; reflexivity.
Qed.

Lemma highlightText_pieces escapeHtml st :
  highlightText escapeHtml st
  = concat (map (renderPiece escapeHtml)
                (highlightPieces (text st) (length (pattern st)) 0
                                 (matches st))).
Proof.
  unfold highlightText; destruct (matches st) as [|idx ms] eqn:E.
  - unfold renderPiece; simpl; rewrite app_nil_r; reflexivity.
  - rewrite highlight_fold; reflexivity.
Qed.

Lemma highlightPieces_marked txt plen ms : forall from,
  map snd (filter fst (highlightPieces txt plen from ms))
  = map (fun idx => slice txt idx (idx + plen)) ms.
Proof.
  induction ms as [|idx ms IH]; intros from; simpl; [reflexivity|].
  rewrite IH; reflexivity.
Qed.

Lemma highlightPieces_text txt plen ms : forall from,
  separated plen from ms ->
  concat (map snd (highlightPieces txt plen from ms)) = skipn from txt.
Proof.
  induction ms as [|idx ms IH]; intros from Hsep; simpl.
  - apply app_nil_r.
  - destruct Hsep as [Hle Hsep].
    rewrite (IH _ Hsep), (slice_skipn txt idx (idx + plen)) by lia.
    apply slice_skipn; exact Hle.
Qed.

(** ** Navigation *)

Lemma length_0_nil {A} (l : list A) : Z.of_nat (length l) = 0%Z -> l = [].
Proof. destruct l; [reflexivity | simpl; lia]. Qed.

Lemma next_in_range (c n : Z) :
  (0 <= c < n)%Z -> (0 <= Z.rem (c + 1) n < n)%Z.
Proof.
  intros H; rewrite Z.rem_mod_nonneg by lia.
  apply Z.mod_pos_bound; lia.
Qed.

Lemma prev_in_range (c n : Z) :
  (0 <= c < n)%Z -> (0 <= Z.rem (c - 1 + n) n < n)%Z.
Proof.
  intros H; rewrite Z.rem_mod_nonneg by lia.
  apply Z.mod_pos_bound; lia.
Qed.

Lemma prev_next (c n : Z) :
  (0 <= c < n)%Z -> Z.rem (Z.rem (c + 1) n - 1 + n) n = c.
Proof.
  intros H.
  destruct (Z.eq_dec (c + 1) n) as [E|E].
  - rewrite E, Z.rem_same by lia.
    rewrite Z.rem_small by lia; lia.
  - rewrite (Z.rem_small (c + 1)) by lia.
    replace (c + 1 - 1 + n)%Z with (c + 1 * n)%Z by lia.
    rewrite Z.rem_mod_nonneg, Z.mod_add, Z.mod_small by lia; reflexivity.
Qed.

Lemma next_prev (c n : Z) :
  (0 <= c < n)%Z -> Z.rem (Z.rem (c - 1 + n) n + 1) n = c.
Proof.
  intros H.
  destruct (Z.eq_dec c 0) as [->|E].
  - rewrite (Z.rem_small (0 - 1 + n)) by lia.
    replace (0 - 1 + n + 1)%Z with n by lia.
    apply Z.rem_same; lia.
  - replace (c - 1 + n)%Z with (c - 1 + 1 * n)%Z by lia.
    rewrite (Z.rem_mod_nonneg (c - 1 + 1 * n)), Z.mod_add, Z.mod_small
      by lia.
    rewrite Z.rem_small by lia; lia.
Qed.

Lemma clickPrev_clickNext st :
  (0 <= current st < Z.of_nat (length (matches st)))%Z ->
  clickPrev (clickNext st) = st /\ clickNext (clickPrev st) = st.
Proof.
  intros H; destruct st as [t p m c s]; unfold clickPrev, clickNext;
    cbn [matches current setCurrent text pattern suggestions] in *.
  destruct (Z.of_nat (length m) =? 0)%Z eqn:E;
    [apply Z.eqb_eq in E; lia|].
  rewrite prev_next, next_prev by exact H; auto.
Qed.

Lemma iter_clickNext st k :
  (0 <= current st < Z.of_nat (length (matches st)))%Z ->
  Nat.iter k clickNext st
  = setCurrent ((current st + Z.of_nat k)
                mod Z.of_nat (length (matches st)))%Z st.
Proof.
  intros H; induction k as [|k IH].
  - simpl; rewrite Z.add_0_r, Z.mod_small by exact H.
    destruct st; reflexivity.
  - change (Nat.iter (S k) clickNext st)
      with (clickNext (Nat.iter k clickNext st)).
    rewrite IH.
    destruct st as [t p m c s]; unfold clickNext, setCurrent;
      cbn [matches current text pattern suggestions] in *.
    destruct (Z.of_nat (length m) =? 0)%Z eqn:E;
      [apply Z.eqb_eq in E; lia|].
    f_equal.
    pose proof (Z.mod_pos_bound (c + Z.of_nat k) (Z.of_nat (length m))).
    rewrite Z.rem_mod_nonneg by lia.
    rewrite Z.add_mod_idemp_l by lia.
    replace (c + Z.of_nat k + 1)%Z with (c + Z.of_nat (S k))%Z by lia.
    reflexivity.
Qed.

Lemma iter_clickPrev st k :
  (0 <= current st < Z.of_nat (length (matches st)))%Z ->
  Nat.iter k clickPrev st
  = setCurrent ((current st - Z.of_nat k)
                mod Z.of_nat (length (matches st)))%Z st.
Proof.
  intros H; induction k as [|k IH].
  - simpl; rewrite Z.sub_0_r, Z.mod_small by exact H.
    destruct st; reflexivity.
  - change (Nat.iter (S k) clickPrev st)
      with (clickPrev (Nat.iter k clickPrev st)).
    rewrite IH.
    destruct st as [t p m c s]; unfold clickPrev, setCurrent;
      cbn [matches current text pattern suggestions] in *.
    destruct (Z.of_nat (length m) =? 0)%Z eqn:E;
      [apply Z.eqb_eq in E; lia|].
    f_equal.
    pose proof (Z.mod_pos_bound (c - Z.of_nat k) (Z.of_nat (length m))).
    rewrite Z.rem_mod_nonneg by lia.
    replace ((c - Z.of_nat k) mod Z.of_nat (length m) - 1
             + Z.of_nat (length m))%Z
      with ((c - Z.of_nat k) mod Z.of_nat (length m)
            + (Z.of_nat (length m) - 1))%Z by lia.
    rewrite Z.add_mod_idemp_l by lia.
    replace (c - Z.of_nat k + (Z.of_nat (length m) - 1))%Z
      with (c - Z.of_nat (S k) + 1 * Z.of_nat (length m))%Z by lia.
    apply Z.mod_add; lia.
Qed.

Lemma indexOk_searchEffect kmpSearch st : indexOk (searchEffect kmpSearch st).
Proof.
  unfold searchEffect, indexOk.
  destruct (trim (pattern st)); [left; simpl; auto|].
  destruct (kmpSearch (text st) (pattern st)) as [|o m] eqn:E; simpl.
  - left; auto.
  - right; lia.
Qed.

Lemma indexOk_doClick c st : indexOk st -> indexOk (doClick c st).
Proof.
  unfold indexOk; intros [[Hm Hc]|H].
  - left; destruct c; unfold doClick, clickPrev, clickNext; simpl;
      rewrite Hm; simpl; auto.
  - right; destruct c; unfold doClick, clickPrev, clickNext; simpl;
      (destruct (Z.of_nat (length (matches st)) =? 0)%Z eqn:E;
       [apply Z.eqb_eq in E; lia|]);
      [apply prev_in_range | apply next_in_range]; exact H.
Qed.

Lemma indexOk_clicks kmpSearch st (cs : list click) :
  indexOk (fold_left (fun s c => doClick c s) cs (searchEffect kmpSearch st)).
Proof.
  generalize (indexOk_searchEffect kmpSearch st).
  generalize (searchEffect kmpSearch st) as s.
  induction cs as [|c cs IH]; intros s Hs; simpl; [exact Hs|].
  apply IH, indexOk_doClick, Hs.
Qed.

(** ** The pieces of [split] *)

Lemma last_cons_nonempty {A} (x : A) (l : list A) d :
  l <> [] -> last (x :: l) d = last l d.
Proof. destruct l; [congruence | reflexivity]. Qed.

Lemma noWhiteSpace_app a b :
  noWhiteSpace a -> noWhiteSpace b -> noWhiteSpace (a ++ b).
Proof.
  unfold noWhiteSpace; rewrite existsb_app; intros -> ->; reflexivity.
Qed.

(** The last piece is the longest end of the text without white space. *)
Lemma splitAux_last_spec s : forall cur inGap,
  noWhiteSpace cur ->
  exists pre,
    cur ++ s = pre ++ last (splitAux s cur inGap) [] /\
    noWhiteSpace (last (splitAux s cur inGap) []) /\
    (pre = [] \/ exists pre' c, pre = pre' ++ [c] /\ isWhiteSpace c = true).
Proof.
  induction s as [|c s IH]; intros cur inGap Hcur; simpl.
  - exists []; rewrite app_nil_r; auto.
  - destruct (isWhiteSpace c) eqn:Ec.
    + destruct (IH [] true eq_refl) as (pre & Hpre & Hno & Hend).
      simpl in Hpre.
      assert (Hlast : last (if inGap then splitAux s [] true
                             else cur :: splitAux s [] true) []
                      = last (splitAux s [] true) []).
      { destruct inGap; [reflexivity|].
        apply last_cons_nonempty, splitAux_not_nil. }
      rewrite Hlast; clear Hlast.
      exists (cur ++ c :: pre); split.
      { rewrite <- app_assoc; simpl; do 2 f_equal; exact Hpre. }
      split; [exact Hno|]; right.
      destruct Hend as [->|(pre' & d & -> & Hd)].
      * exists cur, c; auto.
      * exists (cur ++ c :: pre'), d; split; [|exact Hd].
        rewrite <- app_assoc; reflexivity.
    + destruct (IH (cur ++ [c]) false) as (pre & Hpre & Hno & Hend).
      { apply noWhiteSpace_app; [exact Hcur|].
        unfold noWhiteSpace; simpl; rewrite Ec; reflexivity. }
      exists pre; rewrite <- app_assoc in Hpre; auto.
Qed.

Lemma splitAux_trailing s c : forall cur inGap,
  isWhiteSpace c = true -> last (splitAux (s ++ [c]) cur inGap) [] = [].
Proof.
  induction s as [|x s IH]; intros cur inGap Hc; simpl.
  - rewrite Hc; destruct inGap; reflexivity.
  - destruct (isWhiteSpace x); [|apply IH; exact Hc].
    destruct inGap; [apply IH; exact Hc|].
    rewrite last_cons_nonempty by apply splitAux_not_nil.
    apply IH; exact Hc.
Qed.

Lemma handleTextChange_after_space getCorrection trie st value :
  (value = [] \/ exists v c, value = v ++ [c] /\ isWhiteSpace c = true) ->
  handleTextChange getCorrection trie st value
  = Some (Normal (setText value (setSuggestions [] st))).
Proof.
  intros H; unfold handleTextChange.
  assert (Hlast : last (splitWhitespace value) [] = []).
  { destruct H as [->|(v & c & -> & Hc)]; [reflexivity|].
    apply splitAux_trailing; exact Hc. }
  rewrite Hlast; reflexivity.
Qed.

(** The pieces of [split], by the state of the scan. *)
Lemma splitAux_shape s :
  (forall cur, exists t l,
      splitAux s cur false = (cur ++ t) :: l /\ noWhiteSpace t /\
      Forall noWhiteSpace l /\ Forall (fun w => w <> []) (removelast l))
  /\ (exists l,
         splitAux s [] true = l /\ l <> [] /\ Forall noWhiteSpace l /\
         Forall (fun w => w <> []) (removelast l)).
Proof.
  induction s as [|c s [IHf IHg]]; simpl.
  - split.
    + intros cur; exists [], []; rewrite app_nil_r.
      repeat split; constructor.
    + exists [[]]; repeat split; try discriminate; repeat constructor.
  - destruct (isWhiteSpace c) eqn:Ec.
    + destruct IHg as (l & Hl & Hne & Hno & Hin); split.
      * intros cur; exists [], l; rewrite app_nil_r, Hl.
        repeat split; auto.
      * exists l; auto.
    + assert (Hc : noWhiteSpace [c])
        by (unfold noWhiteSpace; simpl; rewrite Ec; reflexivity).
      split.
      * intros cur; destruct (IHf (cur ++ [c])) as (t & l & -> & Ht & Hl).
        exists (c :: t), l; rewrite <- app_assoc; split; [reflexivity|].
        split; [|exact Hl].
        apply (noWhiteSpace_app [c] t Hc Ht).
      * destruct (IHf [c]) as (t & l & E & Ht & Hl & Hin).
        simpl in E; exists ((c :: t) :: l); rewrite E.
        repeat split; try discriminate.
        -- constructor; [apply (noWhiteSpace_app [c] t Hc Ht) | exact Hl].
        -- destruct l as [|u l]; [constructor|].
           change (removelast ((c :: t) :: u :: l))
             with ((c :: t) :: removelast (u :: l)).
           constructor; [discriminate | exact Hin].
Qed.

Lemma splitWhitespace_shape value : splitShape (splitWhitespace value).
Proof.
  destruct (proj1 (splitAux_shape value) []) as (t & l & E & Ht & Hl & Hin).
  unfold splitShape, splitWhitespace; rewrite E; simpl.
  repeat split; [discriminate | constructor; assumption | exact Hin].
Qed.

(** ** [split] after [join] *)

Lemma splitAux_piece t : forall s cur inGap,
  noWhiteSpace t -> t <> [] ->
  splitAux (t ++ s) cur inGap = splitAux s (cur ++ t) false.
Proof.
  unfold noWhiteSpace; induction t as [|c t IH]; intros s cur inGap Ht Hne;
    [congruence|].
  simpl in Ht; apply orb_false_iff in Ht; destruct Ht as [Hc Ht].
  simpl; rewrite Hc.
  destruct t as [|d t'].
  - reflexivity.
  - rewrite IH by (auto; discriminate).
    rewrite <- app_assoc; reflexivity.
Qed.

Lemma splitAux_join_gap l :
  l <> [] -> Forall noWhiteSpace l ->
  Forall (fun w => w <> []) (removelast l) ->
  splitAux (join (js " ") l) [] true = l.
Proof.
  induction l as [|t l IH]; intros Hne Hno Hin; [congruence|].
  inversion Hno as [|? ? Ht Hl]; subst.
  destruct l as [|u l].
  - simpl; destruct t as [|c t]; [reflexivity|].
    rewrite <- (app_nil_r (c :: t)) at 1.
    rewrite splitAux_piece by (auto; discriminate); reflexivity.
  - change (removelast (t :: u :: l)) with (t :: removelast (u :: l)) in Hin.
    inversion Hin as [|? ? Htne Hin']; subst.
    change (join (js " ") (t :: u :: l))
      with (t ++ js " " ++ join (js " ") (u :: l)).
    rewrite splitAux_piece by assumption.
    change (js " " ++ join (js " ") (u :: l))
      with (" "%char :: join (js " ") (u :: l)).
    cbn [splitAux app].
    change (isWhiteSpace " "%char) with true; cbn iota.
    rewrite IH by (auto; discriminate); reflexivity.
Qed.

Lemma splitWhitespace_join ws :
  splitShape ws -> splitWhitespace (join (js " ") ws) = ws.
Proof.
  intros (Hne & Hno & Hin); destruct ws as [|w l]; [congruence|].
  inversion Hno as [|? ? Hw Hl]; subst; cbn [tl] in Hin.
  unfold splitWhitespace; destruct l as [|u l].
  - simpl; destruct w as [|c w]; [reflexivity|].
    rewrite <- (app_nil_r (c :: w)) at 1.
    rewrite splitAux_piece by (auto; discriminate); reflexivity.
  - change (join (js " ") (w :: u :: l))
      with (w ++ js " " ++ join (js " ") (u :: l)).
    assert (Hgap : splitAux (join (js " ") (u :: l)) [] true = u :: l)
      by (apply splitAux_join_gap; auto; discriminate).
    destruct w as [|c w].
    + change ([] ++ js " " ++ join (js " ") (u :: l))
        with (" "%char :: join (js " ") (u :: l)).
      cbn [splitAux]; change (isWhiteSpace " "%char) with true; cbn iota.
      rewrite Hgap; reflexivity.
    + rewrite splitAux_piece by (auto; discriminate).
      change (js " " ++ join (js " ") (u :: l))
        with (" "%char :: join (js " ") (u :: l)).
      cbn [splitAux app]; change (isWhiteSpace " "%char) with true; cbn iota.
      rewrite Hgap; reflexivity.
Qed.

Lemma join_snoc_empty (l : list str) :
  l <> [] -> join (js " ") (l ++ [[]]) = join (js " ") l ++ js " ".
Proof.
  induction l as [|w l IH]; intros Hne; [congruence|].
  destruct l as [|u l].
  - reflexivity.
  - change (join (js " ") ((w :: u :: l) ++ [[]]))
      with (w ++ js " " ++ join (js " ") ((u :: l) ++ [[]])).
    rewrite IH by discriminate.
    change (join (js " ") (w :: u :: l))
      with (w ++ js " " ++ join (js " ") (u :: l)).
    rewrite <- !app_assoc; reflexivity.
Qed.

Lemma removelast_snoc2 {A} (l : list A) (x y : A) :
  removelast (l ++ [x; y]) = l ++ [x].
Proof.
  change (l ++ [x; y]) with (l ++ [x] ++ [y]).
  rewrite app_assoc; apply removelast_last.
Qed.

Lemma handleSuggestionClick_split word st :
  word <> [] -> noWhiteSpace word ->
  splitWhitespace (text (handleSuggestionClick word st))
  = removelast (splitWhitespace (text st)) ++ [word; []].
Proof.
  intros Hne Hno; unfold handleSuggestionClick; cbn [text setText setSuggestions].
  destruct (splitWhitespace_shape (text st)) as (Hwne & Hwno & Hwin).
  destruct (splitWhitespace (text st)) as [|w l] eqn:E; [congruence|].
  cbn [setLast tl] in *.
  set (keep := removelast (w :: l)).
  rewrite <- join_snoc_empty by (destruct keep; discriminate).
  rewrite <- app_assoc; cbn [app].
  apply splitWhitespace_join.
  assert (Hkeep_no : Forall noWhiteSpace keep).
  { apply Forall_forall; intros x Hx.
    apply (proj1 (Forall_forall _ _) Hwno).
    unfold keep in Hx.
    rewrite (app_removelast_last [] (l := w :: l)) by discriminate.
    apply in_or_app; left; exact Hx. }
  repeat split.
  - destruct keep; discriminate.
  - apply Forall_app; split; [exact Hkeep_no|].
    repeat constructor; exact Hno.
  - unfold keep; destruct l as [|u l].
    + simpl; constructor.
    + change (removelast (w :: u :: l)) with (w :: removelast (u :: l)).
      cbn [app tl]; rewrite removelast_snoc2.
      apply Forall_app; split; [exact Hwin | repeat constructor; exact Hne].
Qed.

(** ** Inserting a stored word, inserting a new word *)

Lemma replace_same {V} (o : Obj.t V) k v :
  Obj.get o k = Some v -> Obj.replace o k v = o.
Proof.
  induction o as [|[k0 v0] o IH]; simpl; [reflexivity|].
  destruct (char_eqb k0 k) eqn:E.
  - apply char_eqb_eq in E; subst k0.
    intros H; injection H as ->; reflexivity.
  - intros H; rewrite (IH H); reflexivity.
Qed.

Lemma set_same {V} (o : Obj.t V) k v :
  Obj.get o k = Some v -> Obj.set o k v = o.
Proof.
  intros H; unfold Obj.set, Obj.has; rewrite H; apply replace_same, H.
Qed.

Lemma insertFrom_stored w : forall n,
  contains n w = true -> insertFrom n w = n.
Proof.
  unfold contains; induction w as [|ch rest IH]; intros [kids fin]; simpl.
  - intros ->; reflexivity.
  - destruct (Obj.get kids ch) as [c|] eqn:E; [|discriminate].
    intros H; rewrite (IH c H), (set_same kids ch c E); reflexivity.
Qed.

Lemma replace_split {V} (o : Obj.t V) k v0 v :
  Obj.get o k = Some v0 ->
  exists A B, o = A ++ (k, v0) :: B /\ Obj.replace o k v = A ++ (k, v) :: B.
Proof.
  induction o as [|[k1 v1] o IH]; simpl; [discriminate|].
  destruct (char_eqb k1 k) eqn:E.
  - apply char_eqb_eq in E; subst k1.
    intros H; injection H as ->; exists [], o; auto.
  - intros H; destruct (IH H) as (A & B & -> & ->).
    exists ((k1, v1) :: A), B; auto.
Qed.

Lemma create_split {V} (o : Obj.t V) k v :
  exists A B, o = A ++ B /\ Obj.create o k v = A ++ (k, v) :: B.
Proof.
  induction o as [|[k1 v1] o IH]; simpl.
  - exists [], []; auto.
  - destruct (Obj.before k k1).
    + exists [], ((k1, v1) :: o); auto.
    + destruct IH as (A & B & HA & ->).
      exists ((k1, v1) :: A), B; rewrite HA at 1; auto.
Qed.

(** A new word takes one place in the order of the traversal, and the
    words that were there keep their order. *)
Lemma allWords_insertFrom_new w : forall n,
  contains n w = false ->
  exists l1 l2,
    allWords n = l1 ++ l2 /\ allWords (insertFrom n w) = l1 ++ w :: l2.
Proof.
  unfold contains; induction w as [|ch rest IH]; intros [kids fin];
    cbn [insertFrom walk children isEnd].
  - intros ->; rewrite !allWords_eq.
    exists [], (flat_map (fun e => map (cons (fst e)) (allWords (snd e)))
                         kids); auto.
  - rewrite !allWords_eq; unfold Obj.set, Obj.has.
    set (F := flat_map (fun e : char * TrieNode =>
                          map (cons (fst e)) (allWords (snd e)))).
    destruct (Obj.get kids ch) as [c|] eqn:E.
    + intros H; destruct (IH c H) as (m1 & m2 & Hm & Hm').
      destruct (replace_split kids ch c (insertFrom c rest) E)
        as (A & B & HA & ->).
      exists ((if fin then [[]] else []) ++ F A ++ map (cons ch) m1),
        (map (cons ch) m2 ++ F B).
      rewrite HA; unfold F; rewrite !flat_map_app; cbn [flat_map fst snd].
      rewrite Hm, Hm', !map_app; cbn [map].
      rewrite <- !app_assoc; auto.
    + intros _.
      destruct (IH newTrieNode (eq_sym (eq_sym (contains_new rest))))
        as (m1 & m2 & Hm & Hm').
      change (allWords newTrieNode) with (@nil str) in Hm.
      symmetry in Hm; apply app_eq_nil in Hm; destruct Hm as [-> ->].
      destruct (create_split kids ch (insertFrom newTrieNode rest))
        as (A & B & HA & ->).
      exists ((if fin then [[]] else []) ++ F A), (F B).
      rewrite HA at 1; unfold F; rewrite !flat_map_app; cbn [flat_map fst snd].
      rewrite Hm'; cbn [map app].
      rewrite <- !app_assoc; auto.
Qed.

(** ** Suggestions after a text change *)

Lemma isWhiteSpace_lowerChar c : isWhiteSpace (lowerChar c) = isWhiteSpace c.
Proof.
  destruct c as [[] [] [] [] [] [] [] []]; vm_compute; reflexivity.
Qed.

Lemma noWhiteSpace_toLowerCase w :
  noWhiteSpace (toLowerCase w) <-> noWhiteSpace w.
Proof.
  unfold noWhiteSpace, toLowerCase.
  assert (E : existsb isWhiteSpace (map lowerChar w)
              = existsb isWhiteSpace w).
  { induction w as [|c w IH]; simpl; [reflexivity|].
    rewrite IH, isWhiteSpace_lowerChar; reflexivity. }
  rewrite E; tauto.
Qed.

Lemma handleTextChange_suggestions getCorrection trie st value st' :
  handleTextChange getCorrection trie st value = Some (Normal st') ->
  suggestions st'
  = if 2 <? length (last (splitWhitespace value) [])
    then getSuggestions trie (last (splitWhitespace value) []) 3
    else [].
Proof.
  unfold handleTextChange.
  destruct (2 <? length (last (splitWhitespace value) [])).
  - destruct (if negb _ then _ else _) as [[v|e]|];
      intros H; inversion H; reflexivity.
  - intros H; inversion H; reflexivity.
Qed.

Lemma getSuggestions_length_3 t prefix :
  length (getSuggestions t prefix 3) <= 3.
Proof.
  rewrite getSuggestions_firstn.
  destruct (walk (root t) (toLowerCase prefix)); [|simpl; lia].
  rewrite length_map, length_firstn; lia.
Qed.

Lemma suggestions_offered
      getCorrection (ws : list str) st value st' :
  Forall noWhiteSpace ws ->
  handleTextChange getCorrection (insertAll newTrie ws) st value
  = Some (Normal st') ->
  length (suggestions st') <= 3 /\
  NoDup (suggestions st') /\
  forall s, In s (suggestions st') ->
    (exists q, s = last (splitWhitespace value) [] ++ q) /\
    noWhiteSpace s /\
    splitWhitespace (text (handleSuggestionClick s st'))
    = removelast (splitWhitespace (text st')) ++ [s; []].
Proof.
  intros Hws H; rewrite (handleTextChange_suggestions _ _ _ _ _ H).
  set (tok := last (splitWhitespace value) []).
  destruct (2 <? length tok) eqn:Elen;
    [|split; [simpl; lia | split; [constructor | intros s []]]].
  apply Nat.ltb_lt in Elen.
  split; [apply getSuggestions_length_3|].
  split; [apply getSuggestions_NoDup_built|].
  intros s Hs.
  destruct (in_getSuggestions _ _ _ _ Hs) as (node & q & _ & Hq & _).
  assert (Hno : noWhiteSpace s).
  { apply getSuggestions_sound_built in Hs.
    apply in_map_iff in Hs; destruct Hs as (w & Hw & Hin).
    apply noWhiteSpace_toLowerCase; rewrite <- Hw.
    apply noWhiteSpace_toLowerCase.
    exact (proj1 (Forall_forall _ _) Hws w Hin). }
  split; [exists q; exact Hq|]. split; [exact Hno|].
  apply handleSuggestionClick_split; [|exact Hno].
  intros ->; symmetry in Hq; apply app_eq_nil in Hq.
  destruct Hq as [Hq _]; rewrite Hq in Elen; simpl in Elen; lia.
Qed.

(** ** A token with an open parenthesis *)

Lemma plainChar_not_question c :
  RegExp.plainChar c = true -> RegExp.isChar "?" c = false.
Proof.
  unfold RegExp.plainChar; rewrite negb_true_iff, !orb_false_iff; tauto.
Qed.

Lemma new_unclosed_group a b :
  forallb RegExp.plainChar a = true -> forallb RegExp.plainChar b = true ->
  RegExp.new (a ++ "("%char :: b ++ js "$") = Some (Throw SyntaxError).
Proof.
  intros Ha Hb; unfold RegExp.new.
  rewrite (RegExpFacts.parse_plain a _ _ _ Ha).
  set (f := RegExp.mkFrame _ _).
  assert (Hopen : RegExp.parse ("("%char :: b ++ js "$") f []
                  = RegExp.parse (b ++ js "$") RegExp.emptyFrame [f]).
  { cbn [RegExp.parse].
    change (RegExp.isChar "(" "(") with true; cbn iota.
    destruct b as [|x b]; [reflexivity|].
    cbn [forallb] in Hb; apply andb_true_iff in Hb.
    rewrite <- app_comm_cons, (plainChar_not_question x (proj1 Hb)).
    reflexivity. }
  rewrite Hopen, (RegExpFacts.parse_plain b _ _ _ Hb); reflexivity.
Qed.

Lemma handleTextChange_open_paren
      getCorrection trie st value (a b : str) :
  last (splitWhitespace value) [] = a ++ "("%char :: b ->
  forallb RegExp.plainChar a = true -> forallb RegExp.plainChar b = true ->
  2 < length (a ++ "("%char :: b) ->
  getCorrection (a ++ "("%char :: b) <> a ++ "("%char :: b ->
  handleTextChange getCorrection trie st value = Some (Throw SyntaxError).
Proof.
  intros Hlast Ha Hb Hlen Hne.
  apply handleTextChange_throws_on_bad_pattern; rewrite Hlast.
  - exact Hlen.
  - exact Hne.
  - rewrite <- app_assoc, <- app_comm_cons.
    apply new_unclosed_group; assumption.
Qed.

(* ================================================================== *)
(** * Further properties, stated *)

(** ** Trie.js *)

(** X1. [getSuggestions] returns the first [limit] of the words stored
    below the node of the lowercased prefix, in the order of the
    traversal (a node's own word, then the words of its children in the
    order of [Object.entries]), each written after the prefix as it was
    passed; there is none when the prefix leads nowhere or the limit is
    zero or less. *)
Theorem getSuggestions_first_words (t : Trie) (prefix : str) (limit : Z) :
  getSuggestions t prefix limit
  = match walk (root t) (toLowerCase prefix) with
    | None => []
    | Some node =>
        map (fun q => prefix ++ q) (firstn (Z.to_nat limit) (allWords node))
    end.
Proof. exact (getSuggestions_firstn t prefix limit). Qed.

(** X2. The case of the prefix shows only in the text of the results: two
    prefixes with the same lower case get the same completions, each
    written after its own prefix. *)
Theorem getSuggestions_ignores_prefix_case
        (t : Trie) (p1 p2 : str) (limit : Z) :
  toLowerCase p1 = toLowerCase p2 ->
  map (skipn (length p1)) (getSuggestions t p1 limit)
  = map (skipn (length p2)) (getSuggestions t p2 limit).
Proof. exact (getSuggestions_same_lower t p1 p2 limit). Qed.

Lemma getSuggestions_ignores_prefix_case_witness :
  toLowerCase (js "BAN") = toLowerCase (js "bAn") /\
  map (skipn (length (js "BAN"))) (getSuggestions seedTrie (js "BAN") 2)
  = map (skipn (length (js "bAn"))) (getSuggestions seedTrie (js "bAn") 2).
Proof.
  assert (H : toLowerCase (js "BAN") = toLowerCase (js "bAn"))
    by reflexivity.
  split; [exact H|].
  exact (getSuggestions_ignores_prefix_case seedTrie (js "BAN") (js "bAn")
                                            2 H).
Defined.

(** X3. After [insert(w)] the trie stores the lower case of [w], every
    word it stored before, and no other word. *)
Theorem insert_stores_exactly (t : Trie) (w w' : str) :
  contains (root (insert t w)) w' = true
  <-> w' = toLowerCase w \/ contains (root t) w' = true.
Proof. exact (contains_insert t w w'). Qed.

(** X4. A trie built by [insert] from the empty trie stores the lower
    cases of the inserted words and nothing else; the empty trie stores
    nothing. *)
Theorem insertAll_stores_lowercased (ws : list str) (w' : str) :
  contains (root (insertAll newTrie ws)) w' = true
  <-> In w' (map toLowerCase ws).
Proof. exact (contains_insertAll_iff ws w'). Qed.

(** X5. In a trie built by [insert], [getSuggestions] returns no string
    twice. *)
Theorem getSuggestions_no_duplicates
        (ws : list str) (prefix : str) (limit : Z) :
  NoDup (getSuggestions (insertAll newTrie ws) prefix limit).
Proof. exact (getSuggestions_NoDup_built ws prefix limit). Qed.

(** X6. In a trie built by [insert], every string [getSuggestions]
    returns is, up to the case of its letters, one of the inserted
    words. *)
Theorem getSuggestions_only_inserted
        (ws : list str) (prefix : str) (limit : Z) (r : str) :
  In r (getSuggestions (insertAll newTrie ws) prefix limit) ->
  In (toLowerCase r) (map toLowerCase ws).
Proof. exact (getSuggestions_sound_built ws prefix limit r). Qed.

Lemma getSuggestions_only_inserted_witness :
  In (js "BANd") (getSuggestions (insertAll newTrie seedWords) (js "BAN") 3)
  /\ In (toLowerCase (js "BANd")) (map toLowerCase seedWords).
Proof.
  assert (H : In (js "BANd")
                 (getSuggestions (insertAll newTrie seedWords) (js "BAN") 3)).
  { vm_compute; right; left; reflexivity. }
  split; [exact H|].
  exact (getSuggestions_only_inserted seedWords (js "BAN") 3 (js "BANd") H).
Defined.

(** X7. The limit is the only reason for a word to be missing: when
    [getSuggestions] returns fewer than [limit] strings, every inserted
    word whose lower case begins with the lowercased prefix is in the
    result, written as the prefix followed by the rest of the word. *)
Theorem getSuggestions_complete_below_limit
        (ws : list str) (prefix : str) (limit : Z) (w q : str) :
  In w ws -> toLowerCase w = toLowerCase prefix ++ q ->
  (Z.of_nat (length (getSuggestions (insertAll newTrie ws) prefix limit))
   < limit)%Z ->
  In (prefix ++ q) (getSuggestions (insertAll newTrie ws) prefix limit).
Proof. exact (getSuggestions_complete_built ws prefix limit w q). Qed.

Lemma getSuggestions_complete_below_limit_witness :
  In (js "banner") seedWords /\
  toLowerCase (js "banner") = toLowerCase (js "Ban") ++ js "ner" /\
  (Z.of_nat (length (getSuggestions (insertAll newTrie seedWords)
                                    (js "Ban") 5)) < 5)%Z /\
  In (js "Ban" ++ js "ner")
     (getSuggestions (insertAll newTrie seedWords) (js "Ban") 5).
Proof.
  assert (H1 : In (js "banner") seedWords)
    by (vm_compute; do 5 right; left; reflexivity).
  assert (H2 : toLowerCase (js "banner") = toLowerCase (js "Ban") ++ js "ner")
    by reflexivity.
  assert (H3 : (Z.of_nat (length (getSuggestions
                                    (insertAll newTrie seedWords)
                                    (js "Ban") 5)) < 5)%Z)
    by (vm_compute; reflexivity).
  split; [exact H1|]. split; [exact H2|]. split; [exact H3|].
  exact (getSuggestions_complete_below_limit seedWords (js "Ban") 5
           (js "banner") (js "ner") H1 H2 H3).
Defined.

(** X8. Inserting a word that is stored already, in any case of its
    letters, leaves the trie as it is. *)
Theorem insert_stored_word_unchanged (t : Trie) (w : str) :
  contains (root t) (toLowerCase w) = true -> insert t w = t.
Proof.
  intros H; destruct t as [r]; unfold insert; cbn [root] in *.
  rewrite (insertFrom_stored _ _ H); reflexivity.
Qed.

Lemma insert_stored_word_unchanged_witness :
  contains (root seedTrie) (toLowerCase (js "Apple")) = true /\
  insert seedTrie (js "Apple") = seedTrie.
Proof.
  assert (H : contains (root seedTrie) (toLowerCase (js "Apple")) = true)
    by reflexivity.
  split; [exact H|].
  exact (insert_stored_word_unchanged seedTrie (js "Apple") H).
Defined.

(** X9. Inserting a word that is not stored puts it at one place in the
    order of the traversal and leaves the words that were stored in the
    order they had. *)
Theorem insert_new_word_keeps_order (t : Trie) (w : str) :
  contains (root t) (toLowerCase w) = false ->
  exists l1 l2,
    allWords (root t) = l1 ++ l2 /\
    allWords (root (insert t w)) = l1 ++ toLowerCase w :: l2.
Proof.
  intros H; unfold insert; cbn [root].
  exact (allWords_insertFrom_new (toLowerCase w) (root t) H).
Qed.

Lemma insert_new_word_keeps_order_witness :
  contains (root seedTrie) (toLowerCase (js "Bat")) = false /\
  exists l1 l2,
    allWords (root seedTrie) = l1 ++ l2 /\
    allWords (root (insert seedTrie (js "Bat")))
    = l1 ++ toLowerCase (js "Bat") :: l2.
Proof.
  assert (H : contains (root seedTrie) (toLowerCase (js "Bat")) = false)
    by reflexivity.
  split; [exact H|].
  exact (insert_new_word_keeps_order seedTrie (js "Bat") H).
Defined.

(** ** TextEditor.jsx *)

(** X10. The token [handleTextChange] works on, the last piece of
    [value.split(/\s+/)], is the longest end of the text without white
    space: it ends the text, has no white space, and what precedes it is
    empty or ends with a white-space character. *)
Theorem lastToken_longest_suffix (value : str) :
  exists pre,
    value = pre ++ last (splitWhitespace value) [] /\
    noWhiteSpace (last (splitWhitespace value) []) /\
    (pre = [] \/ exists pre' c, pre = pre' ++ [c] /\ isWhiteSpace c = true).
Proof. exact (splitAux_last_spec value [] false eq_refl). Qed.

(** X11. A text that is empty or ends with a white-space character is
    taken as it is: [handleTextChange] does not call for a correction,
    builds no regular expression, returns normally and empties the
    suggestions. *)
Theorem handleTextChange_trailing_space
        (getCorrection : str -> str) (trie : Trie) (st : EditorState)
        (value : str) :
  (value = [] \/ exists v c, value = v ++ [c] /\ isWhiteSpace c = true) ->
  handleTextChange getCorrection trie st value
  = Some (Normal (setText value (setSuggestions [] st))).
Proof. exact (handleTextChange_after_space getCorrection trie st value). Qed.

Lemma handleTextChange_trailing_space_witness :
  (js "ban( " = []
   \/ exists v c, js "ban( " = v ++ [c] /\ isWhiteSpace c = true) /\
  handleTextChange SpellChecker.getCorrection seedTrie initialState
                   (js "ban( ")
  = Some (Normal (setText (js "ban( ") (setSuggestions [] initialState))).
Proof.
  assert (H : js "ban( " = []
              \/ exists v c, js "ban( " = v ++ [c] /\ isWhiteSpace c = true).
  { right; exists (js "ban("), " "%char; split; reflexivity. }
  split; [exact H|].
  exact (handleTextChange_trailing_space SpellChecker.getCorrection seedTrie
           initialState (js "ban( ") H).
Defined.

(** X12. For a last token of more than two characters, none of them a
    metacharacter of regular expressions, and a correction without [$],
    [handleTextChange] returns normally: the text becomes what precedes
    the token followed by the correction, and the suggestions are those of
    the trie for the token as it was typed, with the limit 3. *)
Theorem handleTextChange_plain_token_replaced
        (getCorrection : str -> str) (trie : Trie) (st : EditorState)
        (value : str) :
  2 < length (last (splitWhitespace value) []) ->
  forallb RegExp.plainChar (last (splitWhitespace value) []) = true ->
  existsb (RegExp.isChar "$")
          (getCorrection (last (splitWhitespace value) [])) = false ->
  exists pre,
    value = pre ++ last (splitWhitespace value) [] /\
    handleTextChange getCorrection trie st value
    = Some (Normal
              (setText (pre ++ getCorrection (last (splitWhitespace value) []))
                 (setSuggestions
                    (getSuggestions trie (last (splitWhitespace value) []) 3)
                    st))).
Proof. exact (handleTextChange_plain_token getCorrection trie st value). Qed.

Lemma handleTextChange_plain_token_replaced_witness :
  2 < length (last (splitWhitespace (js "I like aple")) []) /\
  forallb RegExp.plainChar (last (splitWhitespace (js "I like aple")) [])
  = true /\
  existsb (RegExp.isChar "$")
          (SpellChecker.getCorrection
             (last (splitWhitespace (js "I like aple")) [])) = false /\
  exists pre,
    js "I like aple" = pre ++ last (splitWhitespace (js "I like aple")) [] /\
    handleTextChange SpellChecker.getCorrection seedTrie initialState
                     (js "I like aple")
    = Some (Normal
              (setText
                 (pre ++ SpellChecker.getCorrection
                           (last (splitWhitespace (js "I like aple")) []))
                 (setSuggestions
                    (getSuggestions seedTrie
                       (last (splitWhitespace (js "I like aple")) []) 3)
                    initialState))).
Proof.
  assert (H1 : 2 < length (last (splitWhitespace (js "I like aple")) []))
    by (vm_compute; lia).
  assert (H2 : forallb RegExp.plainChar
                       (last (splitWhitespace (js "I like aple")) []) = true)
    by reflexivity.
  assert (H3 : existsb (RegExp.isChar "$")
                 (SpellChecker.getCorrection
                    (last (splitWhitespace (js "I like aple")) [])) = false)
    by reflexivity.
  split; [exact H1|]. split; [exact H2|]. split; [exact H3|].
  exact (handleTextChange_plain_token_replaced SpellChecker.getCorrection
           seedTrie initialState (js "I like aple") H1 H2 H3).
Defined.

(** X13. With a trie built by [insert] from words without white space,
    whenever [handleTextChange] returns normally it offers at most three
    suggestions, no one twice; each begins with the token as it was typed
    and has no white space, and a click on it replaces the last token of
    the text by it, keeps the tokens before and leaves an empty token
    after. *)
Theorem handleTextChange_suggestions_offered
        (getCorrection : str -> str) (ws : list str)
        (st st' : EditorState) (value : str) :
  Forall noWhiteSpace ws ->
  handleTextChange getCorrection (insertAll newTrie ws) st value
  = Some (Normal st') ->
  length (suggestions st') <= 3 /\
  NoDup (suggestions st') /\
  forall s, In s (suggestions st') ->
    (exists q, s = last (splitWhitespace value) [] ++ q) /\
    noWhiteSpace s /\
    splitWhitespace (text (handleSuggestionClick s st'))
    = removelast (splitWhitespace (text st')) ++ [s; []].
Proof. exact (suggestions_offered getCorrection ws st value st'). Qed.

Lemma handleTextChange_suggestions_offered_witness :
  Forall noWhiteSpace seedWords /\
  handleTextChange SpellChecker.getCorrection (insertAll newTrie seedWords)
                   initialState (js "a ban")
  = Some (Normal (setText (js "a band")
                    (setSuggestions
                       (map js ["banana"; "band"; "banner"]%string)
                       initialState))) /\
  splitWhitespace
    (text (handleSuggestionClick (js "banner")
             (setText (js "a band")
                (setSuggestions (map js ["banana"; "band"; "banner"]%string)
                                initialState))))
  = map js ["a"; "banner"; ""]%string.
Proof.
  assert (H1 : Forall noWhiteSpace seedWords)
    by (repeat constructor).
  assert (H2 : handleTextChange SpellChecker.getCorrection
                 (insertAll newTrie seedWords) initialState (js "a ban")
               = Some (Normal (setText (js "a band")
                         (setSuggestions
                            (map js ["banana"; "band"; "banner"]%string)
                            initialState))))
    by (vm_compute; reflexivity).
  split; [exact H1|]. split; [exact H2|].
  refine (proj2 (proj2 (proj2 (proj2
            (handleTextChange_suggestions_offered SpellChecker.getCorrection
               seedWords initialState _ (js "a ban") H1 H2))
            (js "banner") _))).
  vm_compute; do 2 right; left; reflexivity.
Defined.

(** X14. After the search effect, and after any sequence of clicks on Prev
    and Next that follows it, the current-match index is [-1] when there
    is no match and an index of the match list otherwise, whatever the
    search function returns. *)
Theorem searchEffect_clicks_index_in_range
        (kmpSearch : str -> str -> list nat) (st : EditorState)
        (cs : list click) :
  indexOk (fold_left (fun s c => doClick c s) cs (searchEffect kmpSearch st)).
Proof. exact (indexOk_clicks kmpSearch st cs). Qed.

(** X15. With the current index on a match, Prev undoes Next and Next
    undoes Prev: the state is the one before the two clicks. *)
Theorem clickPrev_undoes_clickNext (st : EditorState) :
  (0 <= current st < Z.of_nat (length (matches st)))%Z ->
  clickPrev (clickNext st) = st /\ clickNext (clickPrev st) = st.
Proof. exact (clickPrev_clickNext st). Qed.

Lemma clickPrev_undoes_clickNext_witness :
  (0 <= current bananaState
   < Z.of_nat (length (matches bananaState)))%Z
  /\ clickPrev (clickNext bananaState)
     = bananaState.
Proof.
  assert (H : (0 <= current bananaState
               < Z.of_nat (length (matches bananaState)))%Z)
    by (simpl; lia).
  split; [exact H|].
  exact (proj1 (clickPrev_undoes_clickNext bananaState H)).
Defined.

(** X16. With [n] matches and the current index [c] on a match, [k]
    clicks on Next lead to the index [(c + k) mod n] and [k] clicks on
    Prev to [(c - k) mod n], the rest of the state unchanged; [n] clicks
    on either lead back to the state they started from. *)
Theorem clicks_iterated (st : EditorState) (k : nat) :
  (0 <= current st < Z.of_nat (length (matches st)))%Z ->
  Nat.iter k clickNext st
  = setCurrent ((current st + Z.of_nat k)
                mod Z.of_nat (length (matches st)))%Z st /\
  Nat.iter k clickPrev st
  = setCurrent ((current st - Z.of_nat k)
                mod Z.of_nat (length (matches st)))%Z st /\
  Nat.iter (length (matches st)) clickNext st = st /\
  Nat.iter (length (matches st)) clickPrev st = st.
Proof.
  intros H; split; [apply iter_clickNext, H|].
  split; [apply iter_clickPrev, H|].
  rewrite iter_clickNext, iter_clickPrev by exact H.
  replace (current st + Z.of_nat (length (matches st)))%Z
    with (current st + 1 * Z.of_nat (length (matches st)))%Z by lia.
  replace (current st - Z.of_nat (length (matches st)))%Z
    with (current st + (-1) * Z.of_nat (length (matches st)))%Z by lia.
  rewrite !Z.mod_add, Z.mod_small by lia.
  destruct st; split; reflexivity.
Qed.

Lemma clicks_iterated_witness :
  (0 <= current bananaState
   < Z.of_nat (length (matches bananaState)))%Z
  /\ Nat.iter 3 clickNext bananaState
     = bananaState.
Proof.
  assert (H : (0 <= current bananaState
               < Z.of_nat (length (matches bananaState)))%Z)
    by (simpl; lia).
  split; [exact H|].
  exact (proj1 (proj2 (proj2 (clicks_iterated bananaState 3 H)))).
Defined.

(** X17. [highlightText] is the text cut into slices, each passed through
    [escapeHtml], the slices of the matches between the mark tags: there
    is one marked slice for each match, [text.slice(idx, idx +
    pattern.length)], in the order of the match list; and when no match
    starts before the end of the one before it, the slices put together
    are the text, nothing lost and nothing twice. *)
Theorem highlightText_slices (escapeHtml : str -> str) (st : EditorState) :
  highlightText escapeHtml st
  = concat (map (renderPiece escapeHtml)
                (highlightPieces (text st) (length (pattern st)) 0
                                 (matches st))) /\
  map snd (filter fst (highlightPieces (text st) (length (pattern st)) 0
                                       (matches st)))
  = map (fun idx => slice (text st) idx (idx + length (pattern st)))
        (matches st) /\
  (separated (length (pattern st)) 0 (matches st) ->
   concat (map snd (highlightPieces (text st) (length (pattern st)) 0
                                    (matches st)))
   = text st).
Proof.
  split; [apply highlightText_pieces|].
  split; [apply highlightPieces_marked|].
  intros H; rewrite (highlightPieces_text _ _ _ _ H); reflexivity.
Qed.

(** X18. A click on a suggestion that is not empty and has no white space
    replaces the last piece of the text by it: the pieces of the new text
    are the pieces before the last one, unchanged, then the suggestion,
    then an empty piece; and the suggestions are emptied. *)
Theorem handleSuggestionClick_replaces_last (word : str) (st : EditorState) :
  word <> [] -> noWhiteSpace word ->
  splitWhitespace (text (handleSuggestionClick word st))
  = removelast (splitWhitespace (text st)) ++ [word; []] /\
  suggestions (handleSuggestionClick word st) = [].
Proof.
  intros Hne Hno; split;
    [exact (handleSuggestionClick_split word st Hne Hno) | reflexivity].
Qed.

Lemma handleSuggestionClick_replaces_last_witness :
  js "apple" <> [] /\ noWhiteSpace (js "apple") /\
  splitWhitespace
    (text (handleSuggestionClick (js "apple")
                                 (setText (js "I  like app") initialState)))
  = map js ["I"; "like"; "apple"; ""]%string.
Proof.
  assert (H1 : js "apple" <> []) by discriminate.
  assert (H2 : noWhiteSpace (js "apple")) by reflexivity.
  split; [exact H1|]. split; [exact H2|].
  exact (proj1 (handleSuggestionClick_replaces_last (js "apple")
                  (setText (js "I  like app") initialState) H1 H2)).
Defined.

(** X19. When the last token has more than two characters, one of them an
    opening parenthesis and the others no metacharacters, and the
    corrector changes the token, [handleTextChange] throws the
    [SyntaxError] of [new RegExp]; the text and the suggestions are not
    set. *)
Theorem handleTextChange_open_paren_throws
        (getCorrection : str -> str) (trie : Trie) (st : EditorState)
        (value a b : str) :
  last (splitWhitespace value) [] = a ++ "("%char :: b ->
  forallb RegExp.plainChar a = true -> forallb RegExp.plainChar b = true ->
  2 < length (a ++ "("%char :: b) ->
  getCorrection (a ++ "("%char :: b) <> a ++ "("%char :: b ->
  handleTextChange getCorrection trie st value = Some (Throw SyntaxError).
Proof.
  exact (handleTextChange_open_paren getCorrection trie st value a b).
Qed.

Lemma handleTextChange_open_paren_throws_witness :
  last (splitWhitespace (js "a ban(d")) [] = js "ban" ++ "("%char :: js "d" /\
  forallb RegExp.plainChar (js "ban") = true /\
  forallb RegExp.plainChar (js "d") = true /\
  2 < length (js "ban" ++ "("%char :: js "d") /\
  SpellChecker.getCorrection (js "ban" ++ "("%char :: js "d")
  <> js "ban" ++ "("%char :: js "d" /\
  handleTextChange SpellChecker.getCorrection seedTrie initialState
                   (js "a ban(d")
  = Some (Throw SyntaxError).
Proof.
  assert (H1 : last (splitWhitespace (js "a ban(d")) []
               = js "ban" ++ "("%char :: js "d") by reflexivity.
  assert (H2 : forallb RegExp.plainChar (js "ban") = true) by reflexivity.
  assert (H3 : forallb RegExp.plainChar (js "d") = true) by reflexivity.
  assert (H4 : 2 < length (js "ban" ++ "("%char :: js "d"))
    by (simpl; lia).
  assert (H5 : SpellChecker.getCorrection (js "ban" ++ "("%char :: js "d")
               <> js "ban" ++ "("%char :: js "d")
    by (vm_compute; discriminate).
  split; [exact H1|]. split; [exact H2|]. split; [exact H3|].
  split; [exact H4|]. split; [exact H5|].
  exact (handleTextChange_open_paren_throws SpellChecker.getCorrection
           seedTrie initialState (js "a ban(d") (js "ban") (js "d")
           H1 H2 H3 H4 H5).
Defined.
